(** * rc-bot: the team-finder queues of [src/bot.js]

    A shallow embedding of the queue model, the matching sweep
    ([tryMatching]), the Redis persistence ([updateQueuesInRedis]), the
    interaction handlers and the set-up of a team thread
    ([createTeamThread]) of the Discord bot, followed by the properties of
    the specification that concern them and by further properties of the
    code.

    Modelling conventions.
    - A Discord user id (a snowflake string) is a [string]; [===] on ids is
      decidable equality of strings.
    - JavaScript numbers that hold integers ([additionalNeeded],
      [Date.now()]) are [Z]; the model is exact as long as the values stay
      within the range in which a double represents every integer
      ([SafeInteger]).  Beyond it [parseInt] rounds, and from 309 digits on
      it gives [Infinity], which [JSON.stringify] writes as [null].
    - The module-level variables [teamLeaders] and [teamMembers] are the two
      fields of [Queues]; every function that reads or assigns them takes
      the current [Queues] and returns the next one together with the list
      of effects it performed, in program order.
    - [tryMatching], the handlers, [interactionCreate] and [run] describe
      handlers that run one after the other, each to its end: no other
      handler runs while one waits at an [await], and the Discord calls
      ([interaction.reply], [interaction.update], [logEvent]) resolve.
      What happens otherwise is modelled apart: [Async] cuts [tryMatching]
      at its [await]s, so that sweeps can interleave, and [updateRejects]
      is the listener when the [interaction.update] between the save and the
      sweep rejects.
    - The two [redisClient.set] calls may reject; the source catches that,
      and so does the model. *)

From Stdlib Require Import ZArith Lia String Ascii.
From stdpp Require Import base decidable option list strings gmap.

Local Open Scope string_scope.
Local Open Scope list_scope.
Local Open Scope nat_scope.

(** ** Data model (bot.js, lines 53-57) *)

Definition UserId := string.

Module Leader.
(** [{ userId, additionalNeeded, crew: [userId, ...], timestamp }] *)
Record t := mk {
  userId : UserId;
  additionalNeeded : Z;
  crew : list UserId;
  timestamp : Z
}.
End Leader.

Module Member.
(** [{ userId, timestamp }] *)
Record t := mk {
  userId : UserId;
  timestamp : Z
}.
End Member.

(** The two in-memory arrays. *)
Record Queues := mkQueues {
  teamLeaders : list Leader.t;
  teamMembers : list Member.t
}.

Definition emptyQueues : Queues := mkQueues [] [].

(** ** Effects *)

(** The text of a [JSON.stringify] of one of the two arrays is represented
    by the array it encodes. *)
Inductive Json :=
| JLeaders (l : list Leader.t)
| JMembers (l : list Member.t).

Definition REDIS_KEY_TEAM_LEADERS : string := "queue:teamLeaders".
Definition REDIS_KEY_TEAM_MEMBERS : string := "queue:teamMembers".

(** Messages passed to [logEvent] and [console.error]. *)
Inductive LogMsg :=
| AttemptingToMatch
| Recruited (leader member : UserId)
| TeamComplete (leader : UserId)
| QueuesUpdated
| ErrorUpdatingQueues
| AddedAsMember (user : UserId)
| SwitchedToMember (user : UserId)
| UpdatedRecruitment (user : UserId) (n : Z)
| AddedAsLeader (user : UserId) (n : Z)
| AdminCleared
| ThreadClosed (user : UserId)
| ThreadArchived.

(** What [interaction.reply] / [interaction.update] shows to the user. *)
Inductive Notice :=
| SwitchAllegianceToMember (needed : Z)
| AlreadyRegistered
| JoinRequestReceived
| SwitchAllegianceToLeader
| LeaderStatus (crewSize : nat) (needed : Z)
| LeaderSetupMenu
| AllegianceSwitched
| TeamLeaderSetupMenu
| SwitchCancelled
| UpdateRecruitmentMenu
| InvalidSelection
| NowTeamLeader (needed : Z)
| NotAuthorized
| AdminPanel (leaders members : nat)
| QueuesCleared
| QueueDetails (leaders members : nat)
| ForceMatchingExecuted
| TeamConfirmed
| ThreadClosedNotice.

(** One entry per observable operation, in program order.  [redisSet]
    carries whether the promise of [redisClient.set] resolved ([true]) or
    rejected ([false]).  [spliceLeaders i removed] records the statement
    [teamLeaders.splice(i, 1)] of [tryMatching] with the entry it takes out
    of the array, so that its position relative to [createTeamThread] and to
    the Redis writes can be read off the trace. *)
Inductive Effect :=
| logEvent (m : LogMsg)
| consoleError (m : LogMsg)
| redisSet (key : string) (value : Json) (resolved : bool)
| createTeamThread (leader : Leader.t)
| spliceLeaders (i : nat) (removed : Leader.t)
| interactionReply (n : Notice)
| threadSetArchived.

(** ** The Redis store *)

(** The store maps keys to values; only a [redisSet] that resolved writes. *)
Definition applyEffect (store : gmap string Json) (e : Effect) : gmap string Json :=
  match e with
  | redisSet key value true => <[key := value]> store
  | _ => store
  end.

Definition runStore (store : gmap string Json) (tr : list Effect) : gmap string Json :=
  foldl applyEffect store tr.

(** The store after each effect of a trace, in order. *)
Fixpoint storeHistory (store : gmap string Json) (tr : list Effect) : list (gmap string Json) :=
  match tr with
  | [] => []
  | e :: tr' => applyEffect store e :: storeHistory (applyEffect store e) tr'
  end.

(** What can happen to the two [await redisClient.set(...)] of
    [updateQueuesInRedis]: both resolve, the first rejects (the second is
    then never issued), or the second rejects. *)
Inductive SaveOutcome := SaveOk | LeadersSetRejects | MembersSetRejects.

(** [updateQueuesInRedis] (lines 71-79). *)
Definition updateQueuesInRedis (o : SaveOutcome) (q : Queues) : list Effect :=
  match o with
  | SaveOk =>
      [ redisSet REDIS_KEY_TEAM_LEADERS (JLeaders (teamLeaders q)) true;
        redisSet REDIS_KEY_TEAM_MEMBERS (JMembers (teamMembers q)) true;
        logEvent QueuesUpdated ]
  | LeadersSetRejects =>
      [ redisSet REDIS_KEY_TEAM_LEADERS (JLeaders (teamLeaders q)) false;
        consoleError ErrorUpdatingQueues ]
  | MembersSetRejects =>
      [ redisSet REDIS_KEY_TEAM_LEADERS (JLeaders (teamLeaders q)) true;
        redisSet REDIS_KEY_TEAM_MEMBERS (JMembers (teamMembers q)) false;
        consoleError ErrorUpdatingQueues ]
  end.

(** [loadQueues] (lines 59-69) when both [get] calls resolve: an absent key
    gives the empty array. *)
Definition loadQueues (store : gmap string Json) : Queues :=
  {| teamLeaders :=
       match store !! REDIS_KEY_TEAM_LEADERS with
       | Some (JLeaders l) => l
       | _ => []
       end;
     teamMembers :=
       match store !! REDIS_KEY_TEAM_MEMBERS with
       | Some (JMembers l) => l
       | _ => []
       end |}.

(** ** The matching sweep (lines 177-197) *)

(** The inner [while] loop (lines 181-188) for one leader: [shift] the
    oldest member while the leader still needs somebody and the member
    queue is not empty; a member with the leader's own id is dropped
    ([continue]), any other one is pushed on the crew.  Entries of
    [teamMembers] are objects, so the guard [if (!member) break] never
    fires. *)
Fixpoint recruit (leader : Leader.t) (members : list Member.t)
  : Leader.t * list Member.t * list Effect :=
  match members with
  | [] => (leader, [], [])
  | member :: rest =>
      if decide (0 < Leader.additionalNeeded leader)%Z then
        if decide (Member.userId member = Leader.userId leader) then
          recruit leader rest
        else
          let leader1 :=
            Leader.mk (Leader.userId leader)
                      (Leader.additionalNeeded leader - 1)
                      (Leader.crew leader ++ [Member.userId member])
                      (Leader.timestamp leader) in
          let '(leader2, members2, tr) := recruit leader1 rest in
          (leader2, members2,
           logEvent (Recruited (Leader.userId leader) (Member.userId member)) :: tr)
      else (leader, members, [])
  end.

(** The [for] loop over the index [i] (lines 179-195).  [leader] is the
    object stored at [teamLeaders[i]], so what the inner loop did to it is
    written back at index [i].  A completed leader is handed to
    [createTeamThread], then spliced out, and [i--; i++] leaves the index
    where it is.  [fuel] bounds the number of iterations. *)
Fixpoint leadersLoop (fuel i : nat) (q : Queues) : Queues * list Effect :=
  match fuel with
  | O => (q, [])
  | S fuel' =>
      match teamLeaders q !! i with
      | None => (q, [])
      | Some leader =>
          let '(leader', members', tr) := recruit leader (teamMembers q) in
          let q1 := mkQueues (<[i := leader']> (teamLeaders q)) members' in
          if decide (Leader.additionalNeeded leader' = 0%Z) then
            let q2 := mkQueues (delete i (teamLeaders q1)) members' in
            let '(q3, tr3) := leadersLoop fuel' i q2 in
            (q3, tr ++ [ createTeamThread leader'; spliceLeaders i leader';
                         logEvent (TeamComplete (Leader.userId leader')) ] ++ tr3)
          else
            let '(q3, tr3) := leadersLoop fuel' (S i) q1 in
            (q3, tr ++ tr3)
      end
  end.

(** [tryMatching]: every iteration either advances [i] or shortens
    [teamLeaders], so [length teamLeaders] iterations are enough
    (see [leadersLoop_fuel]). *)
Definition tryMatching (o : SaveOutcome) (q : Queues) : Queues * list Effect :=
  let '(q', tr) := leadersLoop (length (teamLeaders q)) 0 q in
  (q', logEvent AttemptingToMatch :: tr ++ updateQueuesInRedis o q').

(** ** [parseInt(selectedValue, 10)] *)

(** A string is its sequence of code units, all below 256 here.  The result
    [None] stands for [NaN]. *)
Definition isWhiteSpace (c : ascii) : bool :=
  let n := nat_of_ascii c in
  (Nat.eqb n 9 || Nat.eqb n 10 || Nat.eqb n 11 || Nat.eqb n 12
   || Nat.eqb n 13 || Nat.eqb n 32 || Nat.eqb n 160)%bool.

Definition digitValue (c : ascii) : option Z :=
  let n := Z.of_nat (nat_of_ascii c) in
  if decide (48 ≤ n ≤ 57)%Z then Some (n - 48)%Z else None.

Fixpoint trimStart (s : string) : string :=
  match s with
  | String c s' => if isWhiteSpace c then trimStart s' else s
  | EmptyString => s
  end.

(** The longest prefix of decimal digits; [acc] is [None] until a digit has
    been read. *)
Fixpoint digits (acc : option Z) (s : string) : option Z :=
  match s with
  | String c s' =>
      match digitValue c with
      | Some d => digits (Some (10 * default 0 acc + d)%Z) s'
      | None => acc
      end
  | EmptyString => acc
  end.

Definition parseInt (s : string) : option Z :=
  match trimStart s with
  | String "-"%char s' => Z.opp <$> digits None s'
  | String "+"%char s' => digits None s'
  | s' => digits None s'
  end.

(** ** Interactions and their handlers *)

Inductive Interaction :=
| Button (customId : string) (user : UserId)
| Command (commandName : string) (user : UserId) (subcommand : string)
| SelectMenu (customId : string) (user : UserId) (value0 : string).

(** What a handler reads from outside while it runs: [Date.now()], whether
    [interaction.channel] is a thread, and the outcome of the first and of
    the second call of [updateQueuesInRedis] that it makes. *)
Record Env := mkEnv {
  now : Z;
  inThread : bool;
  firstSave : SaveOutcome;
  secondSave : SaveOutcome
}.

(** [teamLeaders.find(entry => entry.userId === id)] *)
Definition findLeader (id : UserId) (leaders : list Leader.t) : option Leader.t :=
  find (fun entry => bool_decide (Leader.userId entry = id)) leaders.

(** [teamMembers.find(entry => entry.userId === id)] *)
Definition findMember (id : UserId) (members : list Member.t) : option Member.t :=
  find (fun entry => bool_decide (Member.userId entry = id)) members.

(** [leaderEntry.additionalNeeded = n] on the entry that [find] returned,
    which is the first one with that id; the array holds the same object. *)
Fixpoint setLeaderNeed (id : UserId) (n : Z) (leaders : list Leader.t) : list Leader.t :=
  match leaders with
  | [] => []
  | entry :: rest =>
      if decide (Leader.userId entry = id) then
        Leader.mk (Leader.userId entry) n (Leader.crew entry) (Leader.timestamp entry) :: rest
      else entry :: setLeaderNeed id n rest
  end.

(** [handleLookingForTeam] (lines 390-433). *)
Definition handleLookingForTeam (env : Env) (user : UserId) (q : Queues)
  : Queues * list Effect :=
  match findLeader user (teamLeaders q) with
  | Some leaderEntry =>
      (q, [interactionReply (SwitchAllegianceToMember (Leader.additionalNeeded leaderEntry))])
  | None =>
      match findMember user (teamMembers q) with
      | Some _ => (q, [interactionReply AlreadyRegistered])
      | None =>
          let q1 := mkQueues (teamLeaders q) (teamMembers q ++ [Member.mk user (now env)]) in
          let '(q2, tr) := tryMatching (secondSave env) q1 in
          (q2, [interactionReply JoinRequestReceived; logEvent (AddedAsMember user)]
               ++ updateQueuesInRedis (firstSave env) q1 ++ tr)
      end
  end.

(** [handleLookingForMembersStart] (lines 435-495): it only replies. *)
Definition handleLookingForMembersStart (user : UserId) (q : Queues)
  : Queues * list Effect :=
  match findMember user (teamMembers q) with
  | Some _ => (q, [interactionReply SwitchAllegianceToLeader])
  | None =>
      match findLeader user (teamLeaders q) with
      | Some leaderEntry =>
          (q, [interactionReply (LeaderStatus (length (Leader.crew leaderEntry))
                                              (Leader.additionalNeeded leaderEntry))])
      | None => (q, [interactionReply LeaderSetupMenu])
      end
  end.

(** The assignments of [handleMemberCountSelect] (lines 505-517) for a
    selection that parsed to [n]. *)
Definition registerLeader (env : Env) (user : UserId) (n : Z) (q : Queues)
  : Queues * Effect :=
  match findLeader user (teamLeaders q) with
  | Some _ =>
      (mkQueues (setLeaderNeed user n (teamLeaders q)) (teamMembers q),
       logEvent (UpdatedRecruitment user n))
  | None =>
      (mkQueues (teamLeaders q ++ [Leader.mk user n [] (now env)]) (teamMembers q),
       logEvent (AddedAsLeader user n))
  end.

(** [handleMemberCountSelect] (lines 497-524). *)
Definition handleMemberCountSelect (env : Env) (user : UserId) (selectedValue : string)
  (q : Queues) : Queues * list Effect :=
  match parseInt selectedValue with
  | None => (q, [interactionReply InvalidSelection])
  | Some additionalNeeded =>
      let '(q1, logged) := registerLeader env user additionalNeeded q in
      let '(q2, tr) := tryMatching (secondSave env) q1 in
      (q2, [logged] ++ updateQueuesInRedis (firstSave env) q1
           ++ [interactionReply (NowTeamLeader additionalNeeded)] ++ tr)
  end.

(** The assignments of the [switch_to_team] branch (lines 285-286). *)
Definition switchToTeam (env : Env) (user : UserId) (q : Queues) : Queues :=
  mkQueues (filter (fun entry => Leader.userId entry ≠ user) (teamLeaders q))
           (teamMembers q ++ [Member.mk user (now env)]).

(** The assignment of the [switch_to_leader] branch (line 297). *)
Definition switchToLeader (user : UserId) (q : Queues) : Queues :=
  mkQueues (teamLeaders q)
           (filter (fun entry => Member.userId entry ≠ user) (teamMembers q)).

(** [handleConfirmTeam] (lines 526-543) and the [close_thread] branch
    (lines 271-283) do not touch the queues. *)
Definition handleConfirmTeam (env : Env) : list Effect :=
  interactionReply TeamConfirmed ::
  (if inThread env then [threadSetArchived; logEvent ThreadArchived] else []).

Definition closeThread (env : Env) (user : UserId) : list Effect :=
  if inThread env then
    [threadSetArchived; interactionReply ThreadClosedNotice; logEvent (ThreadClosed user)]
  else [].

Section Handler.

(** [process.env.ADMIN_USER_ID] *)
Variable ADMIN_USER_ID : UserId.

(** The [admin] slash command (lines 351-382). *)
Definition adminCommand (env : Env) (user : UserId) (subcommand : string) (q : Queues)
  : Queues * list Effect :=
  if decide (user ≠ ADMIN_USER_ID) then (q, [interactionReply NotAuthorized])
  else if decide (subcommand = "panel") then
    (q, [interactionReply (AdminPanel (length (teamLeaders q)) (length (teamMembers q)))])
  else if decide (subcommand = "clear") then
    (emptyQueues,
     updateQueuesInRedis (firstSave env) emptyQueues
       ++ [logEvent AdminCleared; interactionReply QueuesCleared])
  else if decide (subcommand = "list") then
    (q, [interactionReply (QueueDetails (length (teamLeaders q)) (length (teamMembers q)))])
  else if decide (subcommand = "match") then
    let '(q', tr) := tryMatching (firstSave env) q in
    (q', tr ++ [interactionReply ForceMatchingExecuted])
  else (q, []).

(** The [interactionCreate] listener (lines 262-388). *)
Definition interactionCreate (env : Env) (interaction : Interaction) (q : Queues)
  : Queues * list Effect :=
  match interaction with
  | Button customId user =>
      if decide (customId = "looking_for_team") then handleLookingForTeam env user q
      else if decide (customId = "looking_for_members_start") then
        handleLookingForMembersStart user q
      else if decide (customId = "confirm_team") then (q, handleConfirmTeam env)
      else if decide (customId = "close_thread") then (q, closeThread env user)
      else if decide (customId = "switch_to_team") then
        let q1 := switchToTeam env user q in
        let '(q2, tr) := tryMatching (secondSave env) q1 in
        (q2, [logEvent (SwitchedToMember user)] ++ updateQueuesInRedis (firstSave env) q1
             ++ [interactionReply AllegianceSwitched] ++ tr)
      else if decide (customId = "switch_to_leader") then
        (switchToLeader user q, [interactionReply TeamLeaderSetupMenu])
      else if decide (customId = "cancel_switch") then
        (q, [interactionReply SwitchCancelled])
      else if decide (customId = "update_recruitment") then
        (q, [interactionReply UpdateRecruitmentMenu])
      else (q, [])
  | Command commandName user subcommand =>
      if decide (commandName = "admin") then adminCommand env user subcommand q
      else (q, [])
  | SelectMenu customId user selectedValue =>
      if decide (customId = "select_member_count") then
        handleMemberCountSelect env user selectedValue q
      else (q, [])
  end.

(** The bot as a machine: the queues in memory and the Redis store. *)
Record World := mkWorld {
  queues : Queues;
  redis : gmap string Json
}.

Definition step (w : World) (input : Env * Interaction) : World :=
  let '(q, tr) := interactionCreate input.1 input.2 (queues w) in
  mkWorld q (runStore (redis w) tr).

(** Handling a list of interactions one after the other. *)
Definition run (w : World) (inputs : list (Env * Interaction)) : World :=
  foldl step w inputs.

End Handler.

Definition okEnv (t : Z) : Env := mkEnv t false SaveOk SaveOk.

(** The listener when the [interaction.update] of line 294 or of line 519
    rejects.  The promise is awaited outside any [try], so the handler ends
    there: the queues are assigned and saved, nothing is shown, and
    [tryMatching] is not called.  [None] for an interaction that reaches
    neither line. *)
Definition updateRejects (env : Env) (interaction : Interaction) (q : Queues)
  : option (Queues * list Effect) :=
  match interaction with
  | Button customId user =>
      if decide (customId = "switch_to_team") then
        let q1 := switchToTeam env user q in
        Some (q1, [logEvent (SwitchedToMember user)]
                  ++ updateQueuesInRedis (firstSave env) q1)
      else None
  | SelectMenu customId user selectedValue =>
      if decide (customId = "select_member_count") then
        match parseInt selectedValue with
        | None => None
        | Some additionalNeeded =>
            let '(q1, logged) := registerLeader env user additionalNeeded q in
            Some (q1, [logged] ++ updateQueuesInRedis (firstSave env) q1)
        end
      else None
  | Command _ _ _ => None
  end.

(** ** The team thread (lines 82-94 and 199-260) *)

Module Thread.

(** What Discord answers while one thread is set up. *)
Record Discord := mkDiscord {
  (** [client.channels.fetch(LOBBY_CHANNEL_ID)]: [None] when it rejects,
      [Some false] when it gives no channel. *)
  channel : option bool;
  (** [client.guilds.cache.get(GUILD_ID)] is defined. *)
  guild : bool;
  (** [member.displayName] of the member that the cache or
      [guild.members.fetch(id)] gives; [None] when that throws. *)
  displayName : UserId → option string;
  (** [channel.threads.create] resolves. *)
  threadCreated : bool;
  (** [thread.members.add(id)] resolves. *)
  addable : UserId → bool;
  (** [guild.members.fetch()]: the members of the guild, each with whether
      it holds [AUTO_ADD_ROLE_ID]; [None] when it rejects. *)
  guildMembers : option (list (UserId * bool))
}.

(** The calls made on the thread and the lines logged, in program order. *)
Inductive Op :=
| createThread (name : string) (resolved : bool)
| addMember (userId : UserId) (resolved : bool)
| logAdded (userId : UserId)
| logCouldNotAdd (userId : UserId)
| addRoleMember (id : UserId) (resolved : bool)
| logAddedRoleMember (id : UserId)
| logFailedRoleMember (id : UserId)
| sendMissing (missingNames : string)
| sendPanel (content leaderName team : string)
| logThreadCreated (leader : UserId)
| logError.

(** [names.join(', ')] *)
Definition join (names : list string) : string := String.concat ", " names.

(** [getMemberNames] (lines 82-94): without the guild the ids come back
    as they are; otherwise each id gives the display name, or the id itself
    when the member cannot be had. *)
Definition getMemberNames (d : Discord) (userIds : list UserId) : list string :=
  if guild d then (fun id => default id (displayName d id)) <$> userIds
  else userIds.

(** The loop of lines 212-220: the calls and log lines, and [missingUsers]. *)
Fixpoint addTeam (d : Discord) (teamUserIds : list UserId) : list Op * list UserId :=
  match teamUserIds with
  | [] => ([], [])
  | userId :: rest =>
      let '(ops, missingUsers) := addTeam d rest in
      if addable d userId then
        (addMember userId true :: logAdded userId :: ops, missingUsers)
      else
        (addMember userId false :: logCouldNotAdd userId :: ops, userId :: missingUsers)
  end.

(** The loop of lines 225-232 over the members that hold the role. *)
Definition addRoleMembers (d : Discord) (roleMembers : list UserId) : list Op :=
  roleMembers ≫= fun id =>
    if addable d id then [addRoleMember id true; logAddedRoleMember id]
    else [addRoleMember id false; logFailedRoleMember id].

(** [createTeamThread] (lines 199-260).  The two [thread.send] calls are
    taken to resolve; every other rejection ends in the [catch] of line
    257. *)
Definition createTeamThread (d : Discord) (leader : Leader.t) : list Op :=
  match channel d with
  | None => [logError]
  | Some false => []
  | Some true =>
      let teamUserIds := Leader.userId leader :: Leader.crew leader in
      let memberNames := getMemberNames d teamUserIds in
      let threadName := String.append "team: " (join memberNames) in
      if threadCreated d then
        let '(added, missingUsers) := addTeam d teamUserIds in
        let roleOps :=
          if guild d then
            (fun members => addRoleMembers d (filter (fun m => m.2 = true) members).*1)
              <$> guildMembers d
          else Some [] in
        match roleOps with
        | None => createThread threadName true :: added ++ [logError]
        | Some roleAdded =>
            createThread threadName true :: added ++ roleAdded
              ++ (match missingUsers with
                  | [] => []
                  | _ => [sendMissing (join (getMemberNames d missingUsers))]
                  end)
              ++ [ sendPanel (join memberNames)
                             (default "" (head memberNames))
                             (join (tail memberNames));
                   logThreadCreated (Leader.userId leader) ]
        end
      else [createThread threadName false; logError]
  end.

(** The ids passed to [thread.members.add] in the loop over the team, each
    with whether the call resolved. *)
Definition teamAdds (ops : list Op) : list (UserId * bool) :=
  omap (fun op => match op with addMember id ok => Some (id, ok) | _ => None end) ops.

(** The texts of the notices about users that could not be added. *)
Definition missingNotices (ops : list Op) : list string :=
  omap (fun op => match op with sendMissing names => Some names | _ => None end) ops.

(** The confirmation panels sent: content, leader name and team. *)
Definition panels (ops : list Op) : list (string * string * string) :=
  omap (fun op => match op with
                  | sendPanel content leaderName team => Some (content, leaderName, team)
                  | _ => None
                  end) ops.

(** The operation touches the thread: it adds somebody or sends something. *)
Definition touchesThread (op : Op) : bool :=
  match op with
  | addMember _ _ | addRoleMember _ _ | sendMissing _ | sendPanel _ _ _ => true
  | _ => false
  end.

End Thread.

(** ** Sweeps that interleave (lines 177-197, at the grain of [await])

    JavaScript runs the code between two [await]s without interruption; at
    an [await] the function gives up control, and any other handler may run
    until it resumes.  The functions above describe a sweep that nothing
    interrupts.  Here the same text of [tryMatching] is cut at its [await]s,
    so that several sweeps can be resumed in any order on the memory they
    share.

    The leader entries are objects: [const leader = teamLeaders[i]] holds
    the object, not its index, so a sweep goes on mutating and reporting
    the object it holds even when another sweep has spliced it out of the
    array or moved it.  The objects therefore have identities ([nat]s that
    index [heap]), and [leaderArray] is [teamLeaders] as the list of the
    identities it holds. *)

#[global] Instance Leader_inhabited : Inhabited Leader.t :=
  populate (Leader.mk "" 0 [] 0).

Module Async.

(** The memory shared by the sweeps, with the effects performed so far in
    the order in which they happened. *)
Record Shared := mkShared {
  heap : list Leader.t;
  leaderArray : list nat;
  memberArray : list Member.t;
  trace : list Effect
}.

(** Where a sweep waits.  [AtStart]: not called yet.  [AtFor i]: at the
    [await logEvent] of line 178 or of line 193, about to test
    [i < teamLeaders.length] ([i] is the value after [i--] and [i++]).
    [AtWhile i leader]: at the [await logEvent] of line 187.
    [AtSplice i leader]: at the [await createTeamThread(leader)] of line
    190.  [AtSetMembers], [AtLogSaved]: at the first and at the second
    [await redisClient.set] of [updateQueuesInRedis] when it resolves;
    [AtCatch]: at one that rejects.  [Finished]: at the [await logEvent] of
    line 75 or returned. *)
Inductive Pc :=
| AtStart
| AtFor (i : nat)
| AtWhile (i : nat) (leader : nat)
| AtSplice (i : nat) (leader : nat)
| AtSetMembers
| AtLogSaved
| AtCatch
| Finished.

(** [teamLeaders] as the entries it holds, and the two queues. *)
Definition leadersOf (s : Shared) : list Leader.t :=
  (fun r => heap s !!! r) <$> leaderArray s.

Definition queuesOf (s : Shared) : Queues :=
  mkQueues (leadersOf s) (memberArray s).

(** The memory that holds the queues [q], nothing having happened yet. *)
Definition load (q : Queues) : Shared :=
  mkShared (teamLeaders q) (seq 0 (length (teamLeaders q))) (teamMembers q) [].

(** The [while] loop (lines 181-188) from its test up to the next [await]:
    entries with the leader's own id are shifted off and dropped without an
    [await] in between ([continue]); the first other entry is recruited,
    which gives the leader as it is then and the id recruited.  [None]: the
    test failed and the loop is left. *)
Fixpoint whileStep (leader : Leader.t) (members : list Member.t)
  : option (Leader.t * UserId) * list Member.t :=
  match members with
  | [] => (None, [])
  | member :: rest =>
      if decide (0 < Leader.additionalNeeded leader)%Z then
        if decide (Member.userId member = Leader.userId leader) then
          whileStep leader rest
        else
          (Some (Leader.mk (Leader.userId leader)
                           (Leader.additionalNeeded leader - 1)
                           (Leader.crew leader ++ [Member.userId member])
                           (Leader.timestamp leader),
                 Member.userId member), rest)
      else (None, members)
  end.

(** [updateQueuesInRedis] up to its first [await] (line 73). *)
Definition startSave (o : SaveOutcome) (s : Shared) : Pc * Shared :=
  match o with
  | LeadersSetRejects =>
      (AtCatch,
       mkShared (heap s) (leaderArray s) (memberArray s)
         (trace s ++ [redisSet REDIS_KEY_TEAM_LEADERS (JLeaders (leadersOf s)) false]))
  | _ =>
      (AtSetMembers,
       mkShared (heap s) (leaderArray s) (memberArray s)
         (trace s ++ [redisSet REDIS_KEY_TEAM_LEADERS (JLeaders (leadersOf s)) true]))
  end.

(** One iteration of the [for] loop for the object [r] held in [leader],
    from the test of the [while] loop to the next [await]; without an
    [await] (nobody recruited, team not complete) the loop goes on with
    [next].  The effect [createTeamThread] carries the object as it is when
    the function is called. *)
Definition leaderSegment (next : Shared → Pc * Shared) (i r : nat) (s : Shared)
  : Pc * Shared :=
  let leader := heap s !!! r in
  match whileStep leader (memberArray s) with
  | (Some (leader', recruited), rest) =>
      (AtWhile i r,
       mkShared (<[r := leader']> (heap s)) (leaderArray s) rest
         (trace s ++ [logEvent (Recruited (Leader.userId leader) recruited)]))
  | (None, rest) =>
      if decide (Leader.additionalNeeded leader = 0%Z) then
        (AtSplice i r,
         mkShared (heap s) (leaderArray s) rest (trace s ++ [createTeamThread leader]))
      else next (mkShared (heap s) (leaderArray s) rest (trace s))
  end.

(** The [for] loop from the test [i < teamLeaders.length] to the next
    [await]; [todo] is [teamLeaders] from index [i] on. *)
Fixpoint forSegment (o : SaveOutcome) (i : nat) (todo : list nat) (s : Shared)
  : Pc * Shared :=
  match todo with
  | [] => startSave o s
  | r :: rest => leaderSegment (forSegment o (S i) rest) i r s
  end.

(** A sweep whose saves end as [o] runs from the [await] it waits at to its
    next one.  After [createTeamThread], [teamLeaders.splice(i, 1)] takes
    out whatever the array holds at index [i] by then (nothing when [i] is
    past its end), and the line logged names the object held in [leader]. *)
Definition resume (o : SaveOutcome) (c : Pc * Shared) : Pc * Shared :=
  let s := c.2 in
  match c.1 with
  | AtStart =>
      (AtFor 0,
       mkShared (heap s) (leaderArray s) (memberArray s)
         (trace s ++ [logEvent AttemptingToMatch]))
  | AtFor i => forSegment o i (drop i (leaderArray s)) s
  | AtWhile i r =>
      leaderSegment (forSegment o (S i) (drop (S i) (leaderArray s))) i r s
  | AtSplice i r =>
      (AtFor i,
       mkShared (heap s) (delete i (leaderArray s)) (memberArray s)
         (trace s
          ++ match leaderArray s !! i with
             | Some removed => [spliceLeaders i (heap s !!! removed)]
             | None => []
             end
          ++ [logEvent (TeamComplete (Leader.userId (heap s !!! r)))]))
  | AtSetMembers =>
      match o with
      | MembersSetRejects =>
          (AtCatch,
           mkShared (heap s) (leaderArray s) (memberArray s)
             (trace s ++ [redisSet REDIS_KEY_TEAM_MEMBERS (JMembers (memberArray s)) false]))
      | _ =>
          (AtLogSaved,
           mkShared (heap s) (leaderArray s) (memberArray s)
             (trace s ++ [redisSet REDIS_KEY_TEAM_MEMBERS (JMembers (memberArray s)) true]))
      end
  | AtLogSaved =>
      (Finished,
       mkShared (heap s) (leaderArray s) (memberArray s)
         (trace s ++ [logEvent QueuesUpdated]))
  | AtCatch =>
      (Finished,
       mkShared (heap s) (leaderArray s) (memberArray s)
         (trace s ++ [consoleError ErrorUpdatingQueues]))
  | Finished => c
  end.

(** A sweep that nothing interrupts: [n] resumptions in a row. *)
Definition alone (o : SaveOutcome) (n : nat) (s : Shared) : Pc * Shared :=
  Nat.iter n (resume o) (AtStart, s).

(** Several sweeps on the same memory: the sweep number [k] is resumed. *)
Definition resumeSweep (k : nat) (c : list (SaveOutcome * Pc) * Shared)
  : list (SaveOutcome * Pc) * Shared :=
  match c.1 !! k with
  | Some (o, pc) =>
      let '(pc', s') := resume o (pc, c.2) in (<[k := (o, pc')]> c.1, s')
  | None => c
  end.

(** The sweeps resumed in the order [schedule]. *)
Definition interleave (schedule : list nat) (c : list (SaveOutcome * Pc) * Shared)
  : list (SaveOutcome * Pc) * Shared :=
  foldl (fun c k => resumeSweep k c) c schedule.

(** Every identity in the array is one of an object, and no object is in
    the array twice. *)
Definition WellFormed (s : Shared) : Prop :=
  NoDup (leaderArray s) ∧ Forall (fun r => r < length (heap s)) (leaderArray s).

End Async.

(** * Properties

    The predicates in which the claims are stated, and the structural form
    of the loop over the leaders used to prove them. *)

(** The leaders handed to [createTeamThread], in call order. *)
Definition threadsCreated (tr : list Effect) : list Leader.t :=
  omap (fun e => match e with createTeamThread l => Some l | _ => None end) tr.

Definition isRedisSet (e : Effect) : bool :=
  match e with redisSet _ _ _ => true | _ => false end.

(** The ids that the leader [leader] pushes on its crew when it pops the
    entries [popped]: all of them but its own. *)
Definition recruits (leader : Leader.t) (popped : list Member.t) : list UserId :=
  filter (fun id => id ≠ Leader.userId leader) (Member.userId <$> popped).

(** [Served leader leader' popped]: the inner loop took the entries
    [popped] off the member queue for [leader] and left it as [leader']. *)
Definition Served (leader leader' : Leader.t) (popped : list Member.t) : Prop :=
  Leader.userId leader' = Leader.userId leader ∧
  Leader.timestamp leader' = Leader.timestamp leader ∧
  Leader.crew leader' = Leader.crew leader ++ recruits leader popped ∧
  Leader.additionalNeeded leader'
    = (Leader.additionalNeeded leader - Z.of_nat (length (recruits leader popped)))%Z.

(** No user id is in both queues. *)
Definition SingleAffiliation (q : Queues) : Prop :=
  ∀ id, ¬ (id ∈ Leader.userId <$> teamLeaders q ∧ id ∈ Member.userId <$> teamMembers q).

(** The same loop with the array split at the index: [done] is
    [teamLeaders[0..i)], [todo] is the rest. *)
Fixpoint sweep (done todo : list Leader.t) (members : list Member.t)
  : Queues * list Effect :=
  match todo with
  | [] => (mkQueues done members, [])
  | leader :: rest =>
      let '(leader', members', tr) := recruit leader members in
      if decide (Leader.additionalNeeded leader' = 0%Z) then
        let '(q3, tr3) := sweep done rest members' in
        (q3, tr ++ [ createTeamThread leader'; spliceLeaders (length done) leader';
                     logEvent (TeamComplete (Leader.userId leader')) ] ++ tr3)
      else
        let '(q3, tr3) := sweep (done ++ [leader']) rest members' in
        (q3, tr ++ tr3)
  end.

(** A leader's team is complete when it needs nobody any more (line 189). *)
Definition Complete (leader : Leader.t) : Prop := Leader.additionalNeeded leader = 0%Z.

#[global] Instance Complete_dec leader : Decision (Complete leader).
Proof. unfold Complete. apply _. Defined.



(** What holds of the queues once a handler has run its sweep: every queued
    leader still needs somebody, and one of the two queues is empty. *)
Definition AtRest (q : Queues) : Prop :=
  Forall (fun l => (0 < Leader.additionalNeeded l)%Z) (teamLeaders q) ∧
  (teamLeaders q = [] ∨ teamMembers q = []).

(** Holds of every interaction but a selection that [parseInt] reads as a
    negative number. *)
Definition NonNegativeSelection (interaction : Interaction) : Prop :=
  match interaction with
  | SelectMenu _ _ selectedValue =>
      match parseInt selectedValue with
      | Some n => (0 ≤ n)%Z
      | None => True
      end
  | _ => True
  end.

(** The stores that Redis goes through while a list of interactions is
    handled, one per effect, in order. *)
Fixpoint persisted (admin : UserId) (w : World) (inputs : list (Env * Interaction))
  : list (gmap string Json) :=
  match inputs with
  | [] => []
  | input :: rest =>
      storeHistory (redis w) (interactionCreate admin input.1 input.2 (queues w)).2
        ++ persisted admin (step admin w input) rest
  end.

Definition initialWorld : World := mkWorld emptyQueues ∅.

Definition isThread (e : Effect) : bool :=
  match e with createTeamThread _ => true | _ => false end.

(** C6 as the specification states it: when [createTeamThread] is called
    for a leader, the entry has already been spliced out of [teamLeaders]
    and a write of the leader queue without it has already resolved. *)
Definition NotifiedAfterCommit (tr : list Effect) : Prop :=
  ∀ pre l post, tr = pre ++ createTeamThread l :: post →
    (∃ i, spliceLeaders i l ∈ pre) ∧
    (∃ leaders, redisSet REDIS_KEY_TEAM_LEADERS (JLeaders leaders) true ∈ pre ∧ l ∉ leaders).

(** What the sweep does: when [createTeamThread] is called nothing has been
    written to Redis yet, and the splice of the entry is the next thing to
    happen. *)
Definition NotifiedBeforeCommit (tr : list Effect) : Prop :=
  ∀ pre l post, tr = pre ++ createTeamThread l :: post →
    Forall (fun e => isRedisSet e = false) pre ∧
    ∃ i post', post = spliceLeaders i l :: post'.


(** The store holds what is in memory. *)
Definition InSync (w : World) : Prop := loadQueues (redis w) = queues w.

(** [Mutation env q interaction q1]: handling [interaction] in the state [q]
    first assigns the queues, which gives [q1], and then saves and sweeps.
    These are the join of a user who is in neither queue, the selection of
    a need that parses, and the switch of a leader to member. *)
Inductive Mutation (env : Env) (q : Queues) : Interaction → Queues → Prop :=
| mutation_join user :
    findLeader user (teamLeaders q) = None →
    findMember user (teamMembers q) = None →
    Mutation env q (Button "looking_for_team" user)
             (mkQueues (teamLeaders q) (teamMembers q ++ [Member.mk user (now env)]))
| mutation_select user selectedValue n :
    parseInt selectedValue = Some n →
    Mutation env q (SelectMenu "select_member_count" user selectedValue)
             (registerLeader env user n q).1
| mutation_switch_to_team user :
    Mutation env q (Button "switch_to_team" user) (switchToTeam env user q).

Definition isReply (e : Effect) : bool :=
  match e with interactionReply _ => true | _ => false end.

(** C8 as the specification states it for one selection value: the handler
    answers with the notice and leaves the queues alone. *)
Definition RejectsSelection (selectedValue : string) : Prop :=
  ∀ admin env user q,
    interactionCreate admin env (SelectMenu "select_member_count" user selectedValue) q
    = (q, [interactionReply InvalidSelection]).

(** A selection carries one of the two values that the three select menus
    of the source offer (lines 301-311, 331-341 and 476-486). *)
Definition MenuSelection (interaction : Interaction) : Prop :=
  match interaction with
  | SelectMenu _ _ selectedValue => selectedValue = "1" ∨ selectedValue = "2"
  | _ => True
  end.

(** [Date.now()] read the same in two environments. *)
Definition sameClock (env env' : Env) : Prop := now env = now env'.

(** A guild in which only A has a display name, B cannot be added to a
    thread, and R holds the role; used to run [Thread.createTeamThread]. *)
Definition someDiscord : Thread.Discord :=
  Thread.mkDiscord (Some true) true
    (fun id => if decide (id = "A") then Some "Alice" else None)
    true
    (fun id => bool_decide (id ≠ "B"))
    (Some [("R", true); ("S", false)]).

(** The leader is not listed in the leader's own crew. *)
Definition NotOwnCrew (leader : Leader.t) : Prop :=
  Leader.userId leader ∉ Leader.crew leader.

(** A number that a double holds exactly, as [Number.isSafeInteger] tests
    it: on these [parseInt], the arithmetic of the sweep and the round trip
    through [JSON.stringify] and [JSON.parse] are those of [Z]. *)
Definition SafeInteger (n : Z) : Prop := (- 2 ^ 53 < n < 2 ^ 53)%Z.

#[global] Instance SafeInteger_dec n : Decision (SafeInteger n).
Proof. unfold SafeInteger. apply _. Defined.

(** Every queued leader needs a number that a double holds exactly. *)
Definition SafeNeeds (q : Queues) : Prop :=
  Forall (fun l => SafeInteger (Leader.additionalNeeded l)) (teamLeaders q).

(** Holds of every interaction but a selection that [parseInt] reads as a
    number that a double does not hold exactly. *)
Definition SafeSelection (interaction : Interaction) : Prop :=
  match interaction with
  | SelectMenu _ _ selectedValue =>
      match parseInt selectedValue with
      | Some n => SafeInteger n
      | None => True
      end
  | _ => True
  end.

(** Two sweeps on the queues in which the leaders L1 and L2 need one member
    each and M waits: the sweep that M's join calls (line 432) and one more,
    called while the first waits at an [await] (a forced match, line 380, or
    the sweep of another handler).  The schedule: the first sweep recruits M
    for L1 and waits at line 187; the second starts, finds L1 complete and
    waits at [createTeamThread] (line 190); the first is resumed, finds L1
    complete as well and waits at line 190 too; the second splices index 0,
    then the first splices index 0; both then find the array empty and
    save. *)
Definition racingQueues : Queues :=
  mkQueues [Leader.mk "L1" 1 [] 1; Leader.mk "L2" 1 [] 2] [Member.mk "M" 3].

Definition racingSweeps : list (SaveOutcome * Async.Pc) * Async.Shared :=
  Async.interleave [0; 0; 1; 1; 0; 1; 0; 1; 1; 1; 0; 0; 0]
    ([(SaveOk, Async.AtStart); (SaveOk, Async.AtStart)], Async.load racingQueues).

(** * Proofs *)


(** ** The loop over the leaders, structurally *)

Lemma leadersLoop_sweep fuel : ∀ i q,
  i ≤ length (teamLeaders q) →
  length (teamLeaders q) - i ≤ fuel →
  leadersLoop fuel i q
  = sweep (take i (teamLeaders q)) (drop i (teamLeaders q)) (teamMembers q).
Proof.
  induction fuel as [|fuel IH]; intros i [leaders members] Hi Hfuel; simpl in *.
  - assert (i = length leaders) as -> by lia.
    by rewrite drop_all, firstn_all.
  - destruct (leaders !! i) as [leader|] eqn:Hlook.
    + pose proof (lookup_lt_Some _ _ _ Hlook) as Hlt.
      rewrite (drop_S _ _ _ Hlook). simpl.
      destruct (recruit leader members) as [[leader' members'] tr].
      assert (length (take i leaders) = i) as Hlen by (rewrite length_take; lia).
      destruct (decide (Leader.additionalNeeded leader' = 0%Z)).
      * rewrite IH; simpl.
        -- rewrite Hlen.
           rewrite delete_take_drop, take_insert_ge, drop_insert_lt by lia.
           rewrite take_app_length' by done.
           rewrite drop_app_length' by done. done.
        -- rewrite length_delete, length_insert; [lia|].
           apply lookup_lt_is_Some. rewrite length_insert. lia.
        -- rewrite length_delete, length_insert; [lia|].
           apply lookup_lt_is_Some. rewrite length_insert. lia.
      * rewrite IH; simpl.
        -- rewrite drop_insert_lt by lia.
           erewrite take_S_r by (apply list_lookup_insert_eq; lia).
           rewrite take_insert_ge by lia. done.
        -- rewrite length_insert. lia.
        -- rewrite length_insert. lia.
    + apply lookup_ge_None in Hlook.
      rewrite drop_ge, take_ge by lia. done.
Qed.

(** [length teamLeaders] iterations are enough, and more change nothing. *)
Lemma leadersLoop_fuel fuel q :
  length (teamLeaders q) ≤ fuel →
  leadersLoop fuel 0 q = leadersLoop (length (teamLeaders q)) 0 q.
Proof.
  intros Hfuel. rewrite !leadersLoop_sweep by lia. done.
Qed.

Lemma tryMatching_sweep o q :
  tryMatching o q
  = let '(q', tr) := sweep [] (teamLeaders q) (teamMembers q) in
    (q', logEvent AttemptingToMatch :: tr ++ updateQueuesInRedis o q').
Proof.
  unfold tryMatching. rewrite leadersLoop_sweep by lia.
  by rewrite take_0, drop_0.
Qed.

(** ** The inner loop *)

Lemma recruits_cons_self leader member popped :
  Member.userId member = Leader.userId leader →
  recruits leader (member :: popped) = recruits leader popped.
Proof.
  intros Heq. unfold recruits. simpl.
  rewrite filter_cons_False; [done | naive_solver].
Qed.

Lemma recruits_cons_other leader member popped :
  Member.userId member ≠ Leader.userId leader →
  recruits leader (member :: popped) = Member.userId member :: recruits leader popped.
Proof.
  intros Hne. unfold recruits. simpl. by rewrite filter_cons_True.
Qed.

Lemma recruits_app leader popped1 popped2 :
  recruits leader (popped1 ++ popped2) = recruits leader popped1 ++ recruits leader popped2.
Proof. unfold recruits. by rewrite fmap_app, filter_app. Qed.

(** Without a member of the leader's own id every popped entry is recruited. *)
Lemma recruits_all leader popped :
  Leader.userId leader ∉ Member.userId <$> popped →
  recruits leader popped = Member.userId <$> popped.
Proof.
  intros Hnotin. unfold recruits.
  induction popped as [|m popped IH]; [done|].
  rewrite fmap_cons in *. rewrite not_elem_of_cons in Hnotin.
  destruct Hnotin as [Hne Hnotin].
  rewrite filter_cons_True by done. by rewrite IH.
Qed.

Lemma recruit_nil leader : recruit leader [] = (leader, [], []).
Proof. done. Qed.

Lemma Served_nil leader : Served leader leader [].
Proof.
  unfold Served, recruits. simpl. rewrite filter_nil. simpl.
  rewrite app_nil_r. repeat split. lia.
Qed.

(** A leader that needs nobody (or less) pops nothing. *)
Lemma recruit_satisfied leader members :
  (Leader.additionalNeeded leader ≤ 0)%Z →
  recruit leader members = (leader, members, []).
Proof.
  intros Hle. destruct members as [|m rest]; [done|]. simpl.
  destruct (decide (0 < Leader.additionalNeeded leader)%Z); [lia | done].
Qed.

(** What the inner loop pops is a prefix of the member queue, oldest first,
    and the crew grows by the popped ids other than the leader's own, in
    that order, one log line per recruit. *)
Lemma recruit_spec members : ∀ leader,
  ∃ popped,
    members = popped ++ (recruit leader members).1.2 ∧
    Served leader (recruit leader members).1.1 popped ∧
    (recruit leader members).2
    = (fun id => logEvent (Recruited (Leader.userId leader) id)) <$> recruits leader popped.
Proof.
  induction members as [|member rest IH]; intros leader.
  - exists []. split; [done|]. split; [apply Served_nil | done].
  - simpl. destruct (decide (0 < Leader.additionalNeeded leader)%Z) as [Hpos|Hnpos].
    + destruct (decide (Member.userId member = Leader.userId leader)) as [Hself|Hother].
      * destruct (IH leader) as (popped & Hq & Hserved & Htr).
        exists (member :: popped). unfold Served in *.
        rewrite recruits_cons_self by done.
        split; [simpl; congruence | done].
      * set (leader1 := Leader.mk _ _ _ _).
        destruct (IH leader1) as (popped & Hq & Hserved & Htr).
        destruct (recruit leader1 rest) as [[leader2 members2] tr]. simpl in *.
        exists (member :: popped). unfold Served in *.
        rewrite recruits_cons_other by done.
        assert (recruits leader1 popped = recruits leader popped) as Hsame by done.
        rewrite Hsame in *.
        destruct Hserved as (Hid & Hts & Hcrew & Hneed).
        split; [simpl; congruence|]. split.
        -- repeat split; simpl; [done | done | |].
           ++ rewrite Hcrew. simpl. by rewrite <- app_assoc.
           ++ rewrite Hneed. simpl. lia.
        -- simpl. by rewrite Htr.
    + exists []. split; [done|]. split; [apply Served_nil | done].
Qed.

(** When the inner loop stops, the leader needs nobody or the queue is
    empty; a need that was not negative does not become negative. *)
Lemma recruit_stop members : ∀ leader,
  ((Leader.additionalNeeded (recruit leader members).1.1 ≤ 0)%Z
   ∨ (recruit leader members).1.2 = []) ∧
  ((0 ≤ Leader.additionalNeeded leader)%Z →
   (0 ≤ Leader.additionalNeeded (recruit leader members).1.1)%Z).
Proof.
  induction members as [|member rest IH]; intros leader; simpl.
  - split; [by right | done].
  - destruct (decide (0 < Leader.additionalNeeded leader)%Z) as [Hpos|Hnpos].
    + destruct (decide (Member.userId member = Leader.userId leader)).
      * apply IH.
      * set (leader1 := Leader.mk _ _ _ _).
        destruct (IH leader1) as [Hstop Hnonneg].
        destruct (recruit leader1 rest) as [[leader2 members2] tr]. simpl in *.
        split; [done|]. intros _. apply Hnonneg. lia.
    + simpl. split; [left; lia | done].
Qed.

Lemma threadsCreated_app tr1 tr2 :
  threadsCreated (tr1 ++ tr2) = threadsCreated tr1 ++ threadsCreated tr2.
Proof. unfold threadsCreated. apply omap_app. Qed.

Lemma threadsCreated_recruit leader members :
  threadsCreated (recruit leader members).2 = [].
Proof.
  destruct (recruit_spec members leader) as (popped & _ & _ & ->).
  induction (recruits leader popped) as [|id ids IH]; [done|]. simpl. apply IH.
Qed.

Lemma redisSet_recruit leader members :
  Forall (fun e => isRedisSet e = false) (recruit leader members).2.
Proof.
  destruct (recruit_spec members leader) as (popped & _ & _ & ->).
  apply Forall_fmap, Forall_true. done.
Qed.

(** ** The sweep, leader by leader *)

(** The sweep serves the leaders in queue order, each from the head of what
    the previous ones left; [results] lists, for every leader, the entry
    the inner loop left and the members it popped.  Complete entries go to
    [createTeamThread], the others stay in the array, both in queue order. *)
Lemma sweep_results todo : ∀ done members,
  ∃ results : list (Leader.t * list Member.t),
    Forall2 (fun l r => Served l r.1 r.2) todo results ∧
    members = concat results.*2 ++ teamMembers (sweep done todo members).1 ∧
    teamLeaders (sweep done todo members).1
    = done ++ filter (fun l => ¬ Complete l) results.*1 ∧
    threadsCreated (sweep done todo members).2 = filter Complete results.*1.
Proof.
  induction todo as [|leader rest IH]; intros done members.
  - exists []. simpl. rewrite app_nil_r. done.
  - simpl.
    destruct (recruit_spec members leader) as (popped & Hq & Hserved & _).
    pose proof (threadsCreated_recruit leader members) as Hthr.
    destruct (recruit leader members) as [[leader' members'] tr]. simpl in *.
    destruct (decide (Leader.additionalNeeded leader' = 0%Z)) as [Hzero|Hnonzero].
    + destruct (IH done members') as (results & Hall & Hmem & Hlead & Hthreads).
      destruct (sweep done rest members') as [q3 tr3]. simpl in *.
      exists ((leader', popped) :: results). simpl.
      split; [by constructor|].
      split; [rewrite Hq, Hmem; by rewrite app_assoc|].
      rewrite filter_cons_False by (unfold Complete; naive_solver).
      rewrite filter_cons_True by done.
      split; [done|].
      rewrite threadsCreated_app, Hthr. simpl. by rewrite Hthreads.
    + destruct (IH (done ++ [leader']) members') as (results & Hall & Hmem & Hlead & Hthreads).
      destruct (sweep (done ++ [leader']) rest members') as [q3 tr3]. simpl in *.
      exists ((leader', popped) :: results). simpl.
      split; [by constructor|].
      split; [rewrite Hq, Hmem; by rewrite app_assoc|].
      rewrite filter_cons_True by done.
      rewrite filter_cons_False by done.
      split; [by rewrite Hlead, <- app_assoc|].
      by rewrite threadsCreated_app, Hthr.
Qed.

(** The same for [tryMatching]. *)
Lemma tryMatching_results o q :
  ∃ results : list (Leader.t * list Member.t),
    Forall2 (fun l r => Served l r.1 r.2) (teamLeaders q) results ∧
    teamMembers q = concat results.*2 ++ teamMembers (tryMatching o q).1 ∧
    teamLeaders (tryMatching o q).1 = filter (fun l => ¬ Complete l) results.*1 ∧
    threadsCreated (tryMatching o q).2 = filter Complete results.*1.
Proof.
  rewrite tryMatching_sweep.
  destruct (sweep_results (teamLeaders q) [] (teamMembers q))
    as (results & Hall & Hmem & Hlead & Hthreads).
  destruct (sweep [] (teamLeaders q) (teamMembers q)) as [q' tr]. simpl in *.
  exists results. repeat split; try done.
  rewrite threadsCreated_app, Hthreads.
  destruct o; simpl; by rewrite app_nil_r.
Qed.

Lemma Served_userIds leaders (results : list (Leader.t * list Member.t)) :
  Forall2 (fun l r => Served l r.1 r.2) leaders results →
  Leader.userId <$> results.*1 = Leader.userId <$> leaders.
Proof.
  induction 1 as [|l r leaders results Hserved _ IH]; [done|].
  rewrite !fmap_cons. destruct Hserved as (-> & _). by rewrite IH.
Qed.

Lemma Served_balance l l' popped :
  Served l l' popped →
  (Leader.additionalNeeded l' + Z.of_nat (length (Leader.crew l'))
   = Leader.additionalNeeded l + Z.of_nat (length (Leader.crew l)))%Z.
Proof.
  intros (_ & _ & Hcrew & Hneed). rewrite Hcrew, Hneed, length_app. lia.
Qed.

(** With an empty member queue nobody is recruited: the complete entries
    leave, the others stay as they are. *)
Lemma sweep_no_members todo : ∀ done,
  (sweep done todo []).1 = mkQueues (done ++ filter (fun l => ¬ Complete l) todo) [].
Proof.
  induction todo as [|leader rest IH]; intros done; simpl.
  - by rewrite app_nil_r.
  - destruct (decide (Leader.additionalNeeded leader = 0%Z)) as [Hzero|Hnonzero].
    + specialize (IH done). destruct (sweep done rest []) as [q3 tr3]. simpl in *.
      by rewrite filter_cons_False by (unfold Complete; naive_solver).
    + specialize (IH (done ++ [leader])).
      destruct (sweep (done ++ [leader]) rest []) as [q3 tr3]. simpl in *.
      rewrite filter_cons_True by done. by rewrite IH, <- app_assoc.
Qed.


Lemma filter_all {A} (P : A → Prop) `{∀ x, Decision (P x)} (l : list A) :
  Forall P l → filter P l = l.
Proof.
  induction 1 as [|x l Hx _ IH]; [done|].
  by rewrite filter_cons_True, IH.
Qed.


(** ** Claims about the sweep *)

(** C2 fails when the leader is also queued as a member: with the single
    leader A needing 2 and the members [A; B; C], the sweep pops A's own
    entry and drops it (line 184), so the crew is [B; C], not [A; B], and
    nobody stays queued.  The state arises from the empty queues with the
    values the menus offer: A opens the leader menu, then A, B and C join,
    then A selects 2 in the menu. *)
Lemma C2_counterexample :
  let q := mkQueues [Leader.mk "A" 2 [] 5]
                    [Member.mk "A" 2; Member.mk "B" 3; Member.mk "C" 4] in
  let w := run "admin" initialWorld
             [ (okEnv 1, Button "looking_for_members_start" "A");
               (okEnv 2, Button "looking_for_team" "A");
               (okEnv 3, Button "looking_for_team" "B");
               (okEnv 4, Button "looking_for_team" "C") ] in
  (registerLeader (okEnv 5) "A" 2 (queues w)).1 = q ∧
  (tryMatching SaveOk q).1 = mkQueues [] [] ∧
  threadsCreated (tryMatching SaveOk q).2 = [Leader.mk "A" 0 ["B"; "C"] 5] ∧
  (tryMatching SaveOk q).1 ≠ mkQueues [] [Member.mk "C" 4] ∧
  Leader.crew <$> threadsCreated (tryMatching SaveOk q).2 ≠ [["A"; "B"]] ∧
  threadsCreated
    (interactionCreate "admin" (okEnv 5) (SelectMenu "select_member_count" "A" "2")
       (queues w)).2
  = [Leader.mk "A" 0 ["B"; "C"] 5].
Proof.
  intros q w.
  split; [vm_compute; reflexivity|]. split; [vm_compute; reflexivity|].
  split; [vm_compute; reflexivity|]. split; [vm_compute; discriminate|].
  split; [vm_compute; discriminate|]. vm_compute. reflexivity.
Qed.

(** C2, amended.  The sweep consumes members in FIFO order.  The leaders
    are served in queue order; the entries a leader pops are the oldest ones
    still queued (the segments popped by the successive leaders, put end to
    end, are a prefix of the member queue and the rest of the queue is what
    remains), and its crew grows by the ids popped, in that order, except
    for a popped entry that carries the leader's own id, which is dropped
    and joins no crew ([recruits]).  In particular, with members [a; b; c]
    queued and one leader needing 2 who is neither [a] nor [b], the sweep
    completes the leader with [a; b] at the end of its crew and leaves
    exactly [c] queued. *)
Theorem C2_fifo_order o q leader a b c :
  (∃ results : list (Leader.t * list Member.t),
     Forall2 (fun l r => Served l r.1 r.2) (teamLeaders q) results ∧
     teamMembers q = concat results.*2 ++ teamMembers (tryMatching o q).1 ∧
     teamLeaders (tryMatching o q).1 = filter (fun l => ¬ Complete l) results.*1 ∧
     threadsCreated (tryMatching o q).2 = filter Complete results.*1) ∧
  (Leader.additionalNeeded leader = 2%Z →
   Member.userId a ≠ Leader.userId leader →
   Member.userId b ≠ Leader.userId leader →
   (tryMatching o (mkQueues [leader] [a; b; c])).1 = mkQueues [] [c] ∧
   threadsCreated (tryMatching o (mkQueues [leader] [a; b; c])).2
   = [ Leader.mk (Leader.userId leader) 0
         (Leader.crew leader ++ [Member.userId a; Member.userId b])
         (Leader.timestamp leader) ]).
Proof.
  split; [apply tryMatching_results|].
  intros Hneed Ha Hb. rewrite tryMatching_sweep. simpl.
  rewrite Hneed. simpl.
  destruct (decide (Member.userId a = Leader.userId leader)); [done|]. simpl.
  destruct (decide (Member.userId b = Leader.userId leader)); [done|]. simpl.
  rewrite <- app_assoc. simpl. split; [done|].
  destruct o; done.
Qed.

Lemma C2_fifo_order_witness :
  let leader := Leader.mk "L" 2 [] 10 in
  let a := Member.mk "A" 1 in
  let b := Member.mk "B" 2 in
  let c := Member.mk "C" 3 in
  (tryMatching SaveOk (mkQueues [leader] [a; b; c])).1 = mkQueues [] [c] ∧
  threadsCreated (tryMatching SaveOk (mkQueues [leader] [a; b; c])).2
  = [ Leader.mk "L" 0 ["A"; "B"] 10 ].
Proof.
  intros leader a b c.
  apply (C2_fifo_order SaveOk emptyQueues leader a b c); [reflexivity | done | done].
Defined.








(** ** The queues between two interactions *)

Lemma AtRest_SingleAffiliation q : AtRest q → SingleAffiliation q.
Proof.
  intros [_ [Hl|Hm]] id [Hinl Hinm].
  - rewrite Hl in Hinl. by apply elem_of_nil in Hinl.
  - rewrite Hm in Hinm. by apply elem_of_nil in Hinm.
Qed.

Lemma sweep_AtRest todo : ∀ done members,
  Forall (fun l => (0 ≤ Leader.additionalNeeded l)%Z) todo →
  Forall (fun l => (0 < Leader.additionalNeeded l)%Z) done →
  done = [] ∨ members = [] →
  AtRest (sweep done todo members).1.
Proof.
  induction todo as [|leader rest IH]; intros done members Htodo Hdone Hempty; simpl.
  - split; [done|]. simpl. destruct Hempty; [by left | by right].
  - apply Forall_cons in Htodo as [Hleader Hrest].
    destruct (recruit_stop members leader) as [Hstop Hnonneg].
    specialize (Hnonneg Hleader).
    assert (members = [] → (recruit leader members).1.2 = []) as Hstay
      by (by intros ->).
    destruct (recruit leader members) as [[leader' members'] tr]. simpl in *.
    destruct (decide (Leader.additionalNeeded leader' = 0%Z)) as [Hzero|Hnonzero].
    + specialize (IH done members' Hrest Hdone).
      destruct (sweep done rest members') as [q3 tr3]. simpl in *.
      apply IH. destruct Hempty; [by left | right; by apply Hstay].
    + assert (members' = []) as -> by (destruct Hstop; [lia | done]).
      specialize (IH (done ++ [leader']) [] Hrest).
      destruct (sweep (done ++ [leader']) rest []) as [q3 tr3]. simpl in *.
      apply IH; [|by right].
      apply Forall_app_2; [done|]. apply Forall_singleton. lia.
Qed.

Lemma tryMatching_AtRest o q :
  Forall (fun l => (0 ≤ Leader.additionalNeeded l)%Z) (teamLeaders q) →
  AtRest (tryMatching o q).1.
Proof.
  intros Hall. rewrite tryMatching_sweep.
  pose proof (sweep_AtRest (teamLeaders q) [] (teamMembers q) Hall) as Hsweep.
  destruct (sweep [] (teamLeaders q) (teamMembers q)) as [q' tr]. simpl in *.
  apply Hsweep; [by constructor | by left].
Qed.

Lemma Forall_positive_nonneg (leaders : list Leader.t) :
  Forall (fun l => (0 < Leader.additionalNeeded l)%Z) leaders →
  Forall (fun l => (0 ≤ Leader.additionalNeeded l)%Z) leaders.
Proof.
  intros Hall. eapply Forall_impl; [exact Hall|]. intros l Hl. simpl in Hl. lia.
Qed.

Lemma setLeaderNeed_nonneg id n leaders :
  (0 ≤ n)%Z →
  Forall (fun l => (0 ≤ Leader.additionalNeeded l)%Z) leaders →
  Forall (fun l => (0 ≤ Leader.additionalNeeded l)%Z) (setLeaderNeed id n leaders).
Proof.
  intros Hn. induction 1 as [|l leaders Hl Hrest IH]; simpl; [by constructor|].
  destruct (decide (Leader.userId l = id)); by constructor.
Qed.

Lemma registerLeader_nonneg env user n q :
  (0 ≤ n)%Z →
  Forall (fun l => (0 ≤ Leader.additionalNeeded l)%Z) (teamLeaders q) →
  Forall (fun l => (0 ≤ Leader.additionalNeeded l)%Z)
         (teamLeaders (registerLeader env user n q).1).
Proof.
  intros Hn Hall. unfold registerLeader.
  destruct (findLeader user (teamLeaders q)); simpl.
  - by apply setLeaderNeed_nonneg.
  - apply Forall_app_2; [done|]. by apply Forall_singleton.
Qed.

Lemma handleLookingForTeam_AtRest env user q :
  AtRest q → AtRest (handleLookingForTeam env user q).1.
Proof.
  intros Hrest. unfold handleLookingForTeam.
  destruct (findLeader user (teamLeaders q)); [done|].
  destruct (findMember user (teamMembers q)); [done|].
  set (q1 := mkQueues _ _).
  pose proof (tryMatching_AtRest (secondSave env) q1) as Hsweep.
  destruct (tryMatching (secondSave env) q1) as [q2 tr]. simpl in *.
  apply Hsweep, Forall_positive_nonneg, Hrest.
Qed.

Lemma handleMemberCountSelect_AtRest env user selectedValue q :
  NonNegativeSelection (SelectMenu "select_member_count" user selectedValue) →
  AtRest q → AtRest (handleMemberCountSelect env user selectedValue q).1.
Proof.
  intros Hsel Hrest. unfold handleMemberCountSelect. simpl in Hsel.
  destruct (parseInt selectedValue) as [n|]; [|done].
  pose proof (registerLeader_nonneg env user n q Hsel
                (Forall_positive_nonneg _ (proj1 Hrest))) as Hreg.
  destruct (registerLeader env user n q) as [q1 logged].
  pose proof (tryMatching_AtRest (secondSave env) q1 Hreg) as Hsweep.
  by destruct (tryMatching (secondSave env) q1) as [q2 tr].
Qed.

Lemma switchToTeam_nonneg env user q :
  AtRest q →
  Forall (fun l => (0 ≤ Leader.additionalNeeded l)%Z) (teamLeaders (switchToTeam env user q)).
Proof.
  intros [Hall _]. simpl. apply Forall_forall.
  intros l [_ Hl]%list_elem_of_filter.
  rewrite Forall_forall in Hall. specialize (Hall l Hl). simpl in Hall. lia.
Qed.

Lemma switchToLeader_AtRest user q : AtRest q → AtRest (switchToLeader user q).
Proof.
  intros [Hall Hempty]. split; [done|]. simpl.
  destruct Hempty as [Hl|Hm]; [by left | right]. by rewrite Hm.
Qed.

Lemma interactionCreate_AtRest admin env interaction q :
  NonNegativeSelection interaction →
  AtRest q → AtRest (interactionCreate admin env interaction q).1.
Proof.
  intros Hsel Hrest. destruct interaction as [customId user|name user sub|customId user value];
    simpl.
  - repeat case_decide; try done.
    + by apply handleLookingForTeam_AtRest.
    + unfold handleLookingForMembersStart.
      destruct (findMember user (teamMembers q)); [done|].
      by destruct (findLeader user (teamLeaders q)).
    + pose proof (tryMatching_AtRest (secondSave env) _ (switchToTeam_nonneg env user q Hrest))
        as Hsweep.
      by destruct (tryMatching (secondSave env) (switchToTeam env user q)).
    + by apply switchToLeader_AtRest.
  - case_decide; [|done]. unfold adminCommand.
    repeat case_decide; try done.
    + split; [by constructor | by left].
    + pose proof (tryMatching_AtRest (firstSave env) q
                    (Forall_positive_nonneg _ (proj1 Hrest))) as Hsweep.
      by destruct (tryMatching (firstSave env) q).
  - case_decide; [|done]. subst customId.
    by apply handleMemberCountSelect_AtRest.
Qed.

Lemma run_AtRest admin inputs : ∀ w,
  Forall (fun input : Env * Interaction => NonNegativeSelection input.2) inputs →
  AtRest (queues w) → AtRest (queues (run admin w inputs)).
Proof.
  induction inputs as [|[env interaction] inputs IH]; intros w Hsel Hrest; [done|].
  apply Forall_cons in Hsel as [Hhead Htail].
  unfold run in *. simpl. apply IH; [done|].
  unfold step. simpl.
  pose proof (interactionCreate_AtRest admin env interaction (queues w) Hhead Hrest) as Hone.
  by destruct (interactionCreate admin env interaction (queues w)).
Qed.

(** ** Claims about the handlers *)

(** C1 fails in two ways.  (a) A user opens the leader menu, then joins as a
    member, then picks "1" in the menu that is still open:
    [handleMemberCountSelect] pushes the leader entry without looking at
    [teamMembers], and its first [updateQueuesInRedis] persists a state with
    the user in both queues; only the sweep that follows drops the member
    entry.  (b) A selection that parses to a negative number makes a leader
    entry that no sweep serves, so the user stays in both queues. *)
Lemma C1_counterexample :
  (∃ store,
     store ∈ persisted "admin" initialWorld
               [ (okEnv 1, Button "looking_for_members_start" "U");
                 (okEnv 2, Button "looking_for_team" "U");
                 (okEnv 3, SelectMenu "select_member_count" "U" "1") ] ∧
     loadQueues store = mkQueues [Leader.mk "U" 1 [] 3] [Member.mk "U" 2] ∧
     ¬ SingleAffiliation (loadQueues store)) ∧
  queues (run "admin" initialWorld
            [ (okEnv 1, Button "looking_for_team" "U");
              (okEnv 2, SelectMenu "select_member_count" "U" "-1") ])
  = mkQueues [Leader.mk "U" (-1) [] 2] [Member.mk "U" 1] ∧
  ¬ SingleAffiliation
      (queues (run "admin" initialWorld
                 [ (okEnv 1, Button "looking_for_team" "U");
                   (okEnv 2, SelectMenu "select_member_count" "U" "-1") ])).
Proof.
  split; [|split].
  - exists (<[REDIS_KEY_TEAM_MEMBERS := JMembers [Member.mk "U" 2]]>
              (<[REDIS_KEY_TEAM_LEADERS := JLeaders [Leader.mk "U" 1 [] 3]]> ∅)).
    split; [|split].
    + apply list_elem_of_lookup. exists 13. vm_compute. reflexivity.
    + vm_compute. reflexivity.
    + intros Hsingle. apply (Hsingle "U").
      split; apply (bool_decide_unpack _); vm_compute; exact I.
  - vm_compute. reflexivity.
  - intros Hsingle. apply (Hsingle "U").
    split; apply (bool_decide_unpack _); vm_compute; exact I.
Qed.

(** C1, amended.  Start from empty queues and handle any list of
    interactions (joins, leader selections and need updates, both switches,
    the admin commands with [clear] and the forced sweep), each handler
    running to its end, sweep included, and no selection parsing to a
    negative number.  Then no user id is in both queues. *)
Theorem C1_single_affiliation admin store inputs :
  Forall (fun input : Env * Interaction => NonNegativeSelection input.2) inputs →
  SingleAffiliation (queues (run admin (mkWorld emptyQueues store) inputs)).
Proof.
  intros Hsel. apply AtRest_SingleAffiliation, run_AtRest; [done|].
  split; [by constructor | by left].
Qed.

Lemma C1_single_affiliation_witness :
  SingleAffiliation
    (queues (run "admin" initialWorld
               [ (okEnv 1, Button "looking_for_members_start" "U");
                 (okEnv 2, Button "looking_for_team" "U");
                 (okEnv 3, Button "looking_for_team" "V");
                 (okEnv 4, SelectMenu "select_member_count" "U" "1");
                 (okEnv 5, SelectMenu "select_member_count" "W" "2");
                 (okEnv 6, Button "switch_to_team" "W");
                 (okEnv 7, Command "admin" "admin" "match") ])).
Proof.
  apply (C1_single_affiliation "admin" ∅).
  repeat (constructor; [vm_compute; first [exact I | discriminate]|]). constructor.
Defined.

(** Between two interactions one of the two queues is empty, and every
    queued leader needs somebody. *)
Lemma one_queue_empty admin store inputs :
  Forall (fun input : Env * Interaction => NonNegativeSelection input.2) inputs →
  AtRest (queues (run admin (mkWorld emptyQueues store) inputs)).
Proof.
  intros Hsel. apply run_AtRest; [done|]. split; [by constructor | by left].
Qed.

(** ** The order of the effects of a sweep *)

Lemma NotifiedBeforeCommit_no_thread tail :
  Forall (fun e => isThread e = false) tail → NotifiedBeforeCommit tail.
Proof.
  intros Hall pre l post ->.
  apply Forall_app in Hall as [_ Hall]. apply Forall_cons in Hall as [Hthread _].
  discriminate.
Qed.

Lemma NotifiedBeforeCommit_cons e tr :
  isThread e = false → isRedisSet e = false →
  NotifiedBeforeCommit tr → NotifiedBeforeCommit (e :: tr).
Proof.
  intros Hthread Hredis Htr pre l post Heq.
  destruct pre as [|e' pre]; simplify_eq/=.
  destruct (Htr pre l post eq_refl) as [Hpre Hpost].
  split; [by constructor | done].
Qed.

Lemma NotifiedBeforeCommit_app tr1 tr2 :
  Forall (fun e => isThread e = false ∧ isRedisSet e = false) tr1 →
  NotifiedBeforeCommit tr2 → NotifiedBeforeCommit (tr1 ++ tr2).
Proof.
  induction 1 as [|e tr1 [Hthread Hredis] _ IH]; intros Htr2; [done|].
  simpl. apply NotifiedBeforeCommit_cons; auto.
Qed.

Lemma NotifiedBeforeCommit_thread l i tr :
  NotifiedBeforeCommit tr →
  NotifiedBeforeCommit (createTeamThread l :: spliceLeaders i l :: tr).
Proof.
  intros Htr pre l' post Heq.
  destruct pre as [|e1 pre]; simplify_eq/=.
  { split; [by constructor | by eauto]. }
  destruct pre as [|e2 pre]; simplify_eq/=.
  destruct (Htr pre l' post eq_refl) as [Hpre Hpost].
  split; [by repeat constructor | done].
Qed.

Lemma recruit_trace_plain leader members :
  Forall (fun e => isThread e = false ∧ isRedisSet e = false) (recruit leader members).2.
Proof.
  destruct (recruit_spec members leader) as (popped & _ & _ & ->).
  apply Forall_fmap, Forall_true. done.
Qed.

Lemma sweep_order todo : ∀ done members tail,
  Forall (fun e => isThread e = false) tail →
  NotifiedBeforeCommit ((sweep done todo members).2 ++ tail).
Proof.
  induction todo as [|leader rest IH]; intros done members tail Htail; simpl.
  - by apply NotifiedBeforeCommit_no_thread.
  - pose proof (recruit_trace_plain leader members) as Hplain.
    destruct (recruit leader members) as [[leader' members'] tr]. simpl in *.
    destruct (decide (Leader.additionalNeeded leader' = 0%Z)).
    + specialize (IH done members' tail Htail).
      destruct (sweep done rest members') as [q3 tr3]. simpl in *.
      rewrite <- app_assoc. simpl.
      apply NotifiedBeforeCommit_app; [done|].
      apply NotifiedBeforeCommit_thread.
      by apply NotifiedBeforeCommit_cons.
    + specialize (IH (done ++ [leader']) members' tail Htail).
      destruct (sweep (done ++ [leader']) rest members') as [q3 tr3]. simpl in *.
      rewrite <- app_assoc. by apply NotifiedBeforeCommit_app.
Qed.

Lemma sweep_no_redis todo : ∀ done members,
  Forall (fun e => isRedisSet e = false) (sweep done todo members).2.
Proof.
  induction todo as [|leader rest IH]; intros done members; simpl; [by constructor|].
  pose proof (redisSet_recruit leader members) as Hplain.
  destruct (recruit leader members) as [[leader' members'] tr]. simpl in *.
  destruct (decide (Leader.additionalNeeded leader' = 0%Z)).
  - specialize (IH done members').
    destruct (sweep done rest members') as [q3 tr3]. simpl in *.
    apply Forall_app_2; [done|]. by repeat constructor.
  - specialize (IH (done ++ [leader']) members').
    destruct (sweep (done ++ [leader']) rest members') as [q3 tr3]. simpl in *.
    by apply Forall_app_2.
Qed.

Lemma updateQueuesInRedis_no_thread o q :
  Forall (fun e => isThread e = false) (updateQueuesInRedis o q).
Proof. destruct o; by repeat constructor. Qed.

(** A sweep logs that it starts, runs the loop without touching Redis, and
    ends with one save of the queues as the loop left them. *)
Lemma tryMatching_trace o q :
  ∃ loop,
    (tryMatching o q).2
    = logEvent AttemptingToMatch :: loop ++ updateQueuesInRedis o (tryMatching o q).1 ∧
    Forall (fun e => isRedisSet e = false) loop.
Proof.
  rewrite tryMatching_sweep.
  pose proof (sweep_no_redis (teamLeaders q) [] (teamMembers q)) as Hplain.
  destruct (sweep [] (teamLeaders q) (teamMembers q)) as [q' tr]. simpl in *.
  by exists tr.
Qed.

(** C6 fails in the simplest sweep that completes a team, the leader L
    needing one member with M queued: the thread for L is created while L
    is still in [teamLeaders] and before anything has been written to
    Redis.  And when two sweeps interleave ([racingSweeps]) the one team
    that is completed, that of L1, has [createTeamThread] called for it
    twice. *)
Lemma C6_counterexample :
  let q := mkQueues [Leader.mk "L" 1 [] 1] [Member.mk "M" 2] in
  (tryMatching SaveOk q).2
  = [ logEvent AttemptingToMatch;
      logEvent (Recruited "L" "M");
      createTeamThread (Leader.mk "L" 0 ["M"] 1);
      spliceLeaders 0 (Leader.mk "L" 0 ["M"] 1);
      logEvent (TeamComplete "L");
      redisSet REDIS_KEY_TEAM_LEADERS (JLeaders []) true;
      redisSet REDIS_KEY_TEAM_MEMBERS (JMembers []) true;
      logEvent QueuesUpdated ] ∧
  ¬ NotifiedAfterCommit (tryMatching SaveOk q).2 ∧
  threadsCreated (Async.trace racingSweeps.2)
  = [ Leader.mk "L1" 0 ["M"] 1; Leader.mk "L1" 0 ["M"] 1 ].
Proof.
  intros q. split; [reflexivity|]. split; [|vm_compute; reflexivity].
  intros Hafter.
  destruct (Hafter [logEvent AttemptingToMatch; logEvent (Recruited "L" "M")]
                   (Leader.mk "L" 0 ["M"] 1)
                   [ spliceLeaders 0 (Leader.mk "L" 0 ["M"] 1);
                     logEvent (TeamComplete "L");
                     redisSet REDIS_KEY_TEAM_LEADERS (JLeaders []) true;
                     redisSet REDIS_KEY_TEAM_MEMBERS (JMembers []) true;
                     logEvent QueuesUpdated ] eq_refl) as [[i Hin] _].
  apply elem_of_cons in Hin as [Hin|Hin]; [discriminate|].
  apply elem_of_cons in Hin as [Hin|Hin]; [discriminate|].
  by apply elem_of_nil in Hin.
Qed.

(** ** Sweeps that interleave *)

Lemma leadersOf_load q : Async.leadersOf (Async.load q) = teamLeaders q.
Proof.
  unfold Async.leadersOf, Async.load. simpl.
  apply list_eq. intros i. rewrite list_lookup_fmap.
  destruct (decide (i < length (teamLeaders q))) as [Hlt|Hge].
  - rewrite lookup_seq_lt by done. simpl.
    by rewrite (list_lookup_lookup_total_lt _ _ Hlt).
  - rewrite lookup_seq_ge by lia. simpl. symmetry. apply lookup_ge_None. lia.
Qed.

Lemma WellFormed_load q : Async.WellFormed (Async.load q).
Proof.
  split; simpl; [apply NoDup_seq|].
  apply Forall_forall. intros r Hr. apply elem_of_seq in Hr. lia.
Qed.

(** Writing the object held at index [i] shows at index [i] of the array
    and nowhere else. *)
Lemma leadersOf_insert (hp : list Leader.t) arr i r v :
  NoDup arr → arr !! i = Some r → r < length hp →
  (fun r' => <[r := v]> hp !!! r') <$> arr = <[i := v]> ((fun r' => hp !!! r') <$> arr).
Proof.
  intros Hnodup Hi Hr. apply list_eq. intros j. rewrite list_lookup_fmap.
  destruct (decide (j = i)) as [->|Hne].
  - rewrite Hi. simpl. rewrite list_lookup_total_insert_eq by done.
    symmetry. apply list_lookup_insert_eq. rewrite length_fmap.
    by apply lookup_lt_Some in Hi.
  - rewrite list_lookup_insert_ne by done. rewrite list_lookup_fmap.
    destruct (arr !! j) as [r'|] eqn:Hj; [|done]. simpl.
    rewrite list_lookup_total_insert_ne; [done|].
    intros ->. apply Hne. by eapply NoDup_lookup.
Qed.

Lemma fmap_delete_list {A B} (f : A → B) (l : list A) i :
  f <$> delete i l = delete i (f <$> l).
Proof.
  revert i. induction l as [|x l IH]; intros [|i]; simpl; try done.
  by rewrite <- IH.
Qed.

Lemma NoDup_delete_list {A} (l : list A) i : NoDup l → NoDup (delete i l).
Proof. intros Hl. apply (sublist_NoDup _ _ Hl), sublist_delete. Qed.

Lemma resume_Finished o n s :
  Nat.iter n (Async.resume o) (Async.Finished, s) = (Async.Finished, s).
Proof. induction n as [|n IH]; [done|]. by rewrite Nat.iter_succ_r. Qed.

(** From its first [await] on, a save takes the steps of
    [updateQueuesInRedis] and changes nothing in memory. *)
Lemma save_resumes o s :
  ∃ n, Nat.iter n (Async.resume o) (Async.startSave o s)
       = (Async.Finished,
          Async.mkShared (Async.heap s) (Async.leaderArray s) (Async.memberArray s)
            (Async.trace s ++ updateQueuesInRedis o (Async.queuesOf s))).
Proof.
  destruct s as [hp arr ms tr].
  destruct o; [exists 2 | exists 1 | exists 2]; simpl; unfold Async.resume; simpl;
    by rewrite <- !app_assoc.
Qed.

(** The inner loop, one resumption per member recruited: a sweep that
    waits at line 187 and is resumed again and again goes through the
    steps of [recruit], and then either waits at [createTeamThread] or goes
    on with the next leader. *)
Lemma while_resumes o i r arr : ∀ ms l hp tr,
  hp !! r = Some l →
  ∃ n, Nat.iter (S n) (Async.resume o) (Async.AtWhile i r, Async.mkShared hp arr ms tr)
       = if decide (Leader.additionalNeeded (recruit l ms).1.1 = 0%Z) then
           (Async.AtSplice i r,
            Async.mkShared (<[r := (recruit l ms).1.1]> hp) arr (recruit l ms).1.2
              (tr ++ (recruit l ms).2 ++ [createTeamThread (recruit l ms).1.1]))
         else
           Async.resume o
             (Async.AtFor (S i),
              Async.mkShared (<[r := (recruit l ms).1.1]> hp) arr (recruit l ms).1.2
                (tr ++ (recruit l ms).2)).
Proof.
  induction ms as [|m ms IH]; intros l hp tr Hl.
  - exists 0. simpl. unfold Async.resume, Async.leaderSegment. simpl.
    rewrite (list_lookup_total_correct _ _ _ Hl). simpl.
    rewrite (list_insert_id _ _ _ Hl), app_nil_r.
    by destruct (decide (Leader.additionalNeeded l = 0%Z)).
  - simpl recruit.
    destruct (decide (0 < Leader.additionalNeeded l)%Z) as [Hpos|Hnot].
    + destruct (decide (Member.userId m = Leader.userId l)) as [Hself|Hother].
      * destruct (IH l hp tr Hl) as [n Hn]. exists n.
        rewrite Nat.iter_succ_r. rewrite Nat.iter_succ_r in Hn.
        rewrite <- Hn. f_equal.
        unfold Async.resume, Async.leaderSegment. simpl.
        rewrite (list_lookup_total_correct _ _ _ Hl).
        rewrite decide_True by done. by rewrite decide_True by done.
      * set (l1 := Leader.mk (Leader.userId l) (Leader.additionalNeeded l - 1)
                             (Leader.crew l ++ [Member.userId m]) (Leader.timestamp l)).
        assert (<[r := l1]> hp !! r = Some l1) as Hl1.
        { apply list_lookup_insert_eq. by apply lookup_lt_Some in Hl. }
        destruct (IH l1 (<[r := l1]> hp)
                    (tr ++ [logEvent (Recruited (Leader.userId l) (Member.userId m))]) Hl1)
          as [n Hn].
        exists (S n). rewrite Nat.iter_succ_r.
        replace (Async.resume o (Async.AtWhile i r, Async.mkShared hp arr (m :: ms) tr))
          with (Async.AtWhile i r,
                Async.mkShared (<[r := l1]> hp) arr ms
                  (tr ++ [logEvent (Recruited (Leader.userId l) (Member.userId m))])).
        2:{ unfold Async.resume, Async.leaderSegment. simpl.
            rewrite (list_lookup_total_correct _ _ _ Hl).
            rewrite decide_True by done. by rewrite decide_False by done. }
        rewrite Hn. rewrite list_insert_insert_eq.
        destruct (recruit l1 ms) as [[l2 ms2] rec]. simpl.
        by rewrite <- !app_assoc.
    + exists 0. simpl. unfold Async.resume, Async.leaderSegment. simpl.
      rewrite (list_lookup_total_correct _ _ _ Hl).
      rewrite decide_False by done.
      rewrite (list_insert_id _ _ _ Hl), app_nil_r.
      by destruct (decide (Leader.additionalNeeded l = 0%Z)).
Qed.

(** The loop over the leaders: a sweep that waits at the head of the [for]
    loop and is resumed until it has finished goes through the steps of
    [leadersLoop] and ends with the save of the queues it leaves. *)
Lemma for_resumes o fuel : ∀ i s,
  Async.WellFormed s →
  length (Async.leaderArray s) - i ≤ fuel →
  ∃ n s',
    Nat.iter (S n) (Async.resume o) (Async.AtFor i, s) = (Async.Finished, s') ∧
    Async.queuesOf s' = (leadersLoop fuel i (Async.queuesOf s)).1 ∧
    Async.trace s' = Async.trace s ++ (leadersLoop fuel i (Async.queuesOf s)).2
                     ++ updateQueuesInRedis o (leadersLoop fuel i (Async.queuesOf s)).1.
Proof.
  assert (∀ i s, Async.leaderArray s !! i = None →
            ∃ n s',
              Nat.iter (S n) (Async.resume o) (Async.AtFor i, s) = (Async.Finished, s') ∧
              Async.queuesOf s' = Async.queuesOf s ∧
              Async.trace s' = Async.trace s ++ [] ++ updateQueuesInRedis o (Async.queuesOf s))
    as Hsave.
  { intros i s Hnone. destruct (save_resumes o s) as [n Hn].
    exists n, (Async.mkShared (Async.heap s) (Async.leaderArray s) (Async.memberArray s)
                 (Async.trace s ++ updateQueuesInRedis o (Async.queuesOf s))).
    split; [|done].
    rewrite Nat.iter_succ_r.
    replace (Async.resume o (Async.AtFor i, s)) with (Async.startSave o s); [exact Hn|].
    unfold Async.resume. simpl. apply lookup_ge_None in Hnone.
    by rewrite drop_ge. }
  induction fuel as [|fuel IH]; intros i s [Hnodup Hvalid] Hfuel.
  - simpl. apply Hsave. apply lookup_ge_None. lia.
  - destruct (Async.leaderArray s !! i) as [r|] eqn:Hi.
    2:{ destruct (Hsave i s Hi) as (n & s' & Hn & Hq & Htr). exists n, s'.
        assert (teamLeaders (Async.queuesOf s) !! i = None) as Hview.
        { simpl. unfold Async.leadersOf. by rewrite list_lookup_fmap, Hi. }
        cbn [leadersLoop]. by rewrite Hview. }
    destruct s as [hp arr ms tr]. simpl in Hnodup, Hvalid, Hfuel, Hi.
    assert (r < length hp) as Hr.
    { rewrite Forall_forall in Hvalid. apply Hvalid. by eapply list_elem_of_lookup_2. }
    pose proof (list_lookup_lookup_total_lt hp r Hr) as Hl.
    change (Async.queuesOf (Async.mkShared hp arr ms tr))
      with (mkQueues ((fun r' => hp !!! r') <$> arr) ms).
    cbn [leadersLoop teamLeaders teamMembers Async.trace].
    rewrite list_lookup_fmap, Hi. cbn [fmap option_fmap option_map].
    set (l := hp !!! r) in *.
    destruct (while_resumes o i r arr ms l hp tr Hl) as [n1 Hn1].
    assert (Nat.iter (S n1) (Async.resume o) (Async.AtFor i, Async.mkShared hp arr ms tr)
            = Nat.iter (S n1) (Async.resume o) (Async.AtWhile i r, Async.mkShared hp arr ms tr))
      as Hsame.
    { rewrite !Nat.iter_succ_r. f_equal. unfold Async.resume. simpl.
      by rewrite (drop_S _ _ _ Hi). }
    rewrite <- Hsame in Hn1. clear Hsame.
    destruct (recruit l ms) as [[l' ms'] rec]. cbn [fst snd] in Hn1.
    rewrite <- (leadersOf_insert hp arr i r l' Hnodup Hi Hr).
    destruct (decide (Leader.additionalNeeded l' = 0%Z)) as [Hdone|Hmore].
    + set (hp2 := <[r := l']> hp) in *.
      set (s3 := Async.mkShared hp2 (delete i arr) ms'
                   ((tr ++ rec ++ [createTeamThread l'])
                    ++ [spliceLeaders i l'] ++ [logEvent (TeamComplete (Leader.userId l'))])).
      destruct (IH i s3) as (n2 & s' & Hn2 & Hq & Htr).
      { split; simpl; [by apply NoDup_delete_list|].
        apply Forall_delete. unfold hp2. by rewrite length_insert. }
      { simpl. rewrite length_delete by done. lia. }
      exists (S n2 + S n1), s'.
      assert (Async.queuesOf s3
              = mkQueues (delete i ((fun r' => hp2 !!! r') <$> arr)) ms') as Hs3.
      { unfold Async.queuesOf, Async.leadersOf. simpl. by rewrite fmap_delete_list. }
      rewrite Hs3 in Hq, Htr.
      destruct (leadersLoop fuel i _) as [q3 tr3]. cbn [fst snd] in *.
      split; [|split; [done|]].
      * replace (S (S n2 + S n1)) with (S n2 + S (S n1)) by lia.
        rewrite Nat.iter_add, (Nat.iter_succ (S n1)), Hn1.
        rewrite <- Hn2. f_equal. unfold Async.resume. simpl. rewrite Hi.
        unfold hp2. by rewrite list_lookup_total_insert_eq by done.
      * rewrite Htr. unfold s3. cbn [Async.trace]. by rewrite <- !app_assoc.
    + set (s2 := Async.mkShared (<[r := l']> hp) arr ms' (tr ++ rec)) in *.
      destruct (IH (S i) s2) as (n2 & s' & Hn2 & Hq & Htr).
      { split; simpl; [done|]. by rewrite length_insert. }
      { simpl. lia. }
      exists (n2 + n1), s'.
      assert (Async.queuesOf s2
              = mkQueues ((fun r' => <[r := l']> hp !!! r') <$> arr) ms') as Hs2 by done.
      rewrite Hs2 in Hq, Htr.
      destruct (leadersLoop fuel (S i) _) as [q3 tr3]. cbn [fst snd] in *.
      split; [|split; [done|]].
      * replace (S (n2 + n1)) with (n2 + S n1) by lia.
        rewrite Nat.iter_add, Hn1. by rewrite <- Nat.iter_succ_r.
      * rewrite Htr. unfold s2. cbn [Async.trace]. by rewrite <- !app_assoc.
Qed.

(** A sweep that nothing interrupts finishes, and what it has then done to
    the queues and the effects it has performed are those of
    [tryMatching]. *)
Lemma alone_tryMatching o q :
  ∃ n final,
    (∀ m, n ≤ m → Async.alone o m (Async.load q) = (Async.Finished, final)) ∧
    Async.queuesOf final = (tryMatching o q).1 ∧
    Async.trace final = (tryMatching o q).2.
Proof.
  set (s0 := Async.mkShared (teamLeaders q) (seq 0 (length (teamLeaders q)))
               (teamMembers q) [logEvent AttemptingToMatch]).
  destruct (for_resumes o (length (teamLeaders q)) 0 s0) as (n & s' & Hn & Hq & Htr).
  { apply (WellFormed_load q). }
  { simpl. rewrite length_seq. lia. }
  assert (Async.queuesOf s0 = q) as Hs0.
  { unfold Async.queuesOf. simpl.
    pose proof (leadersOf_load q) as Hload. unfold Async.leadersOf in *. simpl in *.
    rewrite Hload. by destruct q. }
  rewrite Hs0 in Hq, Htr.
  exists (S (S n)), s'. unfold tryMatching.
  destruct (leadersLoop (length (teamLeaders q)) 0 q) as [q' tr]. simpl in *.
  split; [|split; [done | by rewrite Htr]].
  intros m Hm. replace m with ((m - S (S n)) + S (S n)) by lia.
  unfold Async.alone. rewrite Nat.iter_add.
  replace (Nat.iter (S (S n)) (Async.resume o) (Async.AtStart, Async.load q))
    with (Async.Finished, s'); [apply resume_Finished|].
  rewrite Nat.iter_succ_r. by rewrite <- Hn.
Qed.

(** C3 fails when two sweeps interleave ([racingSweeps]).  Both sweeps end;
    [createTeamThread] has been called twice for L1, once by each sweep, and
    L2, which still needs its member, has been spliced out of [teamLeaders]
    by the splice that the first sweep meant for L1: it is queued nowhere
    and no thread was made for it.  A sweep alone on the same queues makes
    one thread for L1 and leaves L2 queued. *)
Lemma C3_counterexample :
  racingSweeps.1 = [(SaveOk, Async.Finished); (SaveOk, Async.Finished)] ∧
  Async.trace racingSweeps.2
  = [ logEvent AttemptingToMatch;
      logEvent (Recruited "L1" "M");
      logEvent AttemptingToMatch;
      createTeamThread (Leader.mk "L1" 0 ["M"] 1);
      createTeamThread (Leader.mk "L1" 0 ["M"] 1);
      spliceLeaders 0 (Leader.mk "L1" 0 ["M"] 1);
      logEvent (TeamComplete "L1");
      spliceLeaders 0 (Leader.mk "L2" 1 [] 2);
      logEvent (TeamComplete "L1");
      redisSet REDIS_KEY_TEAM_LEADERS (JLeaders []) true;
      redisSet REDIS_KEY_TEAM_MEMBERS (JMembers []) true;
      logEvent QueuesUpdated;
      redisSet REDIS_KEY_TEAM_LEADERS (JLeaders []) true;
      redisSet REDIS_KEY_TEAM_MEMBERS (JMembers []) true;
      logEvent QueuesUpdated ] ∧
  threadsCreated (Async.trace racingSweeps.2)
  = [Leader.mk "L1" 0 ["M"] 1; Leader.mk "L1" 0 ["M"] 1] ∧
  ¬ NoDup (Leader.userId <$> threadsCreated (Async.trace racingSweeps.2)) ∧
  Async.queuesOf racingSweeps.2 = mkQueues [] [] ∧
  ¬ Complete (Leader.mk "L2" 1 [] 2) ∧
  (tryMatching SaveOk racingQueues).1 = mkQueues [Leader.mk "L2" 1 [] 2] [] ∧
  threadsCreated (tryMatching SaveOk racingQueues).2 = [Leader.mk "L1" 0 ["M"] 1].
Proof.
  assert (threadsCreated (Async.trace racingSweeps.2)
          = [Leader.mk "L1" 0 ["M"] 1; Leader.mk "L1" 0 ["M"] 1]) as Hthreads
    by (vm_compute; reflexivity).
  split; [vm_compute; reflexivity|]. split; [vm_compute; reflexivity|].
  split; [done|]. split.
  { rewrite Hthreads. intros Hnodup. apply NoDup_cons in Hnodup as [Hnotin _].
    apply Hnotin. by left. }
  split; [vm_compute; reflexivity|].
  split; [discriminate|]. split; vm_compute; reflexivity.
Qed.

(** C3, amended.  In a sweep that no other handler interrupts at its
    [await]s (the sweep is resumed until it has finished, and nothing else
    touches the memory meanwhile), the sweep finishes and, for every leader
    entry it processes, the entry leaves the leader queue and is handed to
    [createTeamThread], once, exactly when the inner loop left it with
    [additionalNeeded = 0], which is exactly when its crew has grown to what
    it had plus what it needed; an entry that still needs somebody stays
    queued.  One entry gives at most one completion: the completions are
    the complete entries, each once, in queue order, and distinct leader
    ids give distinct completions. *)
Theorem C3_completion_threshold o q :
  ∃ n final (served : list Leader.t),
    (∀ m, n ≤ m → Async.alone o m (Async.load q) = (Async.Finished, final)) ∧
    Forall2 (fun l l' =>
               Leader.userId l' = Leader.userId l ∧
               (Leader.additionalNeeded l' + Z.of_nat (length (Leader.crew l'))
                = Leader.additionalNeeded l + Z.of_nat (length (Leader.crew l)))%Z ∧
               (Complete l' ↔
                Z.of_nat (length (Leader.crew l'))
                = (Leader.additionalNeeded l + Z.of_nat (length (Leader.crew l)))%Z))
            (teamLeaders q) served ∧
    Async.leadersOf final = filter (fun l => ¬ Complete l) served ∧
    threadsCreated (Async.trace final) = filter Complete served ∧
    (NoDup (Leader.userId <$> teamLeaders q) →
     NoDup (Leader.userId <$> threadsCreated (Async.trace final))).
Proof.
  destruct (alone_tryMatching o q) as (n & final & Hrun & Hq & Htr).
  destruct (tryMatching_results o q) as (results & Hall & _ & Hlead & Hthreads).
  exists n, final, results.*1. rewrite Htr.
  replace (Async.leadersOf final) with (teamLeaders (Async.queuesOf final)) by done.
  rewrite Hq. repeat split; try done.
  - clear Hlead Hthreads.
    induction Hall as [|l r leaders results Hserved _ IH]; [by constructor|].
    rewrite fmap_cons. constructor; [|done].
    pose proof (Served_balance _ _ _ Hserved) as Hbal.
    destruct Hserved as (Hid & _). unfold Complete. repeat split; try done; lia.
  - intros Hnodup. rewrite Hthreads.
    rewrite <- (Served_userIds _ _ Hall) in Hnodup.
    apply (sublist_NoDup _ _ Hnodup).
    apply fmap_sublist, sublist_filter.
Qed.

Lemma C3_completion_threshold_witness :
  let q := mkQueues [Leader.mk "L1" 1 [] 1; Leader.mk "L2" 2 [] 2]
                    [Member.mk "A" 3; Member.mk "B" 4] in
  ∃ n final,
    (∀ m, n ≤ m → Async.alone SaveOk m (Async.load q) = (Async.Finished, final)) ∧
    NoDup (Leader.userId <$> threadsCreated (Async.trace final)).
Proof.
  intros q.
  destruct (C3_completion_threshold SaveOk q)
    as (n & final & served & Hrun & _ & _ & _ & Hnodup).
  exists n, final. split; [exact Hrun|].
  apply Hnodup. apply (bool_decide_unpack _). vm_compute. exact I.
Defined.

(** C6, amended.  In a sweep that no other handler interrupts at its
    [await]s, [createTeamThread] is called exactly once for every team the
    sweep completes: entry by entry, in queue order, the sweep leaves each
    leader as the inner loop served it, calls [createTeamThread] for the
    ones that are complete, each once, and keeps the others queued.  The
    call comes before the entry is spliced out of [teamLeaders], the splice
    being the very next step, and before the Redis save of the sweep, which
    is issued once, after the loop over the leaders. *)
Theorem C6_notifier_order o q :
  ∃ n final (results : list (Leader.t * list Member.t)),
    (∀ m, n ≤ m → Async.alone o m (Async.load q) = (Async.Finished, final)) ∧
    Forall2 (fun l r => Served l r.1 r.2) (teamLeaders q) results ∧
    threadsCreated (Async.trace final) = filter Complete results.*1 ∧
    Async.leadersOf final = filter (fun l => ¬ Complete l) results.*1 ∧
    NotifiedBeforeCommit (Async.trace final) ∧
    (∃ loop,
       Async.trace final
       = logEvent AttemptingToMatch :: loop
         ++ updateQueuesInRedis o (Async.queuesOf final) ∧
       Forall (fun e => isRedisSet e = false) loop).
Proof.
  destruct (alone_tryMatching o q) as (n & final & Hrun & Hq & Htr).
  destruct (tryMatching_results o q) as (results & Hall & _ & Hlead & Hthreads).
  exists n, final, results.
  replace (Async.leadersOf final) with (teamLeaders (Async.queuesOf final)) by done.
  rewrite Htr, Hq.
  split; [exact Hrun|]. split; [exact Hall|]. split; [exact Hthreads|].
  split; [exact Hlead|]. split; [|apply tryMatching_trace].
  rewrite tryMatching_sweep.
  pose proof (fun tail => sweep_order (teamLeaders q) [] (teamMembers q) tail) as Horder.
  destruct (sweep [] (teamLeaders q) (teamMembers q)) as [q' tr]. simpl in *.
  apply NotifiedBeforeCommit_cons; [done | done |].
  apply Horder, updateQueuesInRedis_no_thread.
Qed.

Lemma C6_notifier_order_witness :
  let q := mkQueues [Leader.mk "L" 1 [] 1] [Member.mk "M" 2] in
  Forall (fun e => isRedisSet e = false)
         [logEvent AttemptingToMatch; logEvent (Recruited "L" "M")] ∧
  ∃ i post',
    [ spliceLeaders 0 (Leader.mk "L" 0 ["M"] 1);
      logEvent (TeamComplete "L");
      redisSet REDIS_KEY_TEAM_LEADERS (JLeaders []) true;
      redisSet REDIS_KEY_TEAM_MEMBERS (JMembers []) true;
      logEvent QueuesUpdated ]
    = spliceLeaders i (Leader.mk "L" 0 ["M"] 1) :: post'.
Proof.
  intros q.
  destruct (C6_notifier_order SaveOk q)
    as (n & final & results & Hrun & _ & _ & _ & Horder & _).
  assert (Nat.iter 10 (Async.resume SaveOk) (Async.AtStart, Async.load q)
          = (Async.Finished,
             Async.mkShared [Leader.mk "L" 0 ["M"] 1] [] []
               [ logEvent AttemptingToMatch;
                 logEvent (Recruited "L" "M");
                 createTeamThread (Leader.mk "L" 0 ["M"] 1);
                 spliceLeaders 0 (Leader.mk "L" 0 ["M"] 1);
                 logEvent (TeamComplete "L");
                 redisSet REDIS_KEY_TEAM_LEADERS (JLeaders []) true;
                 redisSet REDIS_KEY_TEAM_MEMBERS (JMembers []) true;
                 logEvent QueuesUpdated ])) as Hten
    by (vm_compute; reflexivity).
  specialize (Hrun (n + 10) (Nat.le_add_r n 10)).
  unfold Async.alone in Hrun. rewrite Nat.iter_add, Hten, resume_Finished in Hrun.
  injection Hrun as <-.
  apply (Horder [logEvent AttemptingToMatch; logEvent (Recruited "L" "M")]
                (Leader.mk "L" 0 ["M"] 1)).
  reflexivity.
Defined.

(** ** Persistence *)

Lemma redis_keys_differ : REDIS_KEY_TEAM_LEADERS ≠ REDIS_KEY_TEAM_MEMBERS.
Proof. discriminate. Qed.

Lemma runStore_app store tr1 tr2 :
  runStore store (tr1 ++ tr2) = runStore (runStore store tr1) tr2.
Proof. apply foldl_app. Qed.

(** A save whose two writes resolve leaves exactly the queues in the store,
    whatever the store held. *)
Lemma save_then_load store q :
  loadQueues (runStore store (updateQueuesInRedis SaveOk q)) = q.
Proof.
  unfold loadQueues, runStore. simpl.
  rewrite lookup_insert_ne by (symmetry; apply redis_keys_differ).
  rewrite !lookup_insert_eq. by destruct q.
Qed.



(** ** Mutation, sweep, save *)

(** C5 fails when a queued member presses [switch_to_leader]: the member
    entry is removed in memory, nothing is swept and nothing is written, and
    the store still holds the member.  It also fails for a mutation that is
    swept when all goes well: with U waiting as a member, L selects a need
    of 1 and the [interaction.update] of line 519 rejects; the leader entry
    has been pushed and saved, the handler ends before [tryMatching], and L
    and U stay queued side by side. *)
Lemma C5_counterexample :
  let w := run "admin" initialWorld [(okEnv 1, Button "looking_for_team" "U")] in
  let input := (okEnv 2, Button "switch_to_leader" "U") in
  InSync w ∧
  queues w = mkQueues [] [Member.mk "U" 1] ∧
  interactionCreate "admin" input.1 input.2 (queues w)
  = (emptyQueues, [interactionReply TeamLeaderSetupMenu]) ∧
  loadQueues (redis (step "admin" w input)) = mkQueues [] [Member.mk "U" 1] ∧
  ¬ InSync (step "admin" w input) ∧
  updateRejects (okEnv 3) (SelectMenu "select_member_count" "L" "1") (queues w)
  = Some (mkQueues [Leader.mk "L" 1 [] 3] [Member.mk "U" 1],
          [ logEvent (AddedAsLeader "L" 1);
            redisSet REDIS_KEY_TEAM_LEADERS (JLeaders [Leader.mk "L" 1 [] 3]) true;
            redisSet REDIS_KEY_TEAM_MEMBERS (JMembers [Member.mk "U" 1]) true;
            logEvent QueuesUpdated ]).
Proof.
  intros w input.
  assert (loadQueues (redis (step "admin" w input)) = mkQueues [] [Member.mk "U" 1])
    as Hstore by (vm_compute; reflexivity).
  split; [vm_compute; reflexivity|]. split; [vm_compute; reflexivity|].
  split; [vm_compute; reflexivity|]. split; [done|].
  split; [|vm_compute; reflexivity].
  unfold InSync. rewrite Hstore. vm_compute. discriminate.
Qed.

(** C5, amended.  A join that enqueues a member, a selection that creates a
    leader or updates a need, and a switch of a leader to member all go the
    same way when the handler runs to its end (its [interaction.update]
    resolves and no other handler runs meanwhile, which is what
    [interactionCreate] describes) and the assigned queues hold only needs
    that a double holds exactly ([SafeNeeds]): the assigned queues are
    saved, then swept, and the sweep ends with a save of the queues it
    leaves; no other write reaches Redis in between.  So when the two
    writes of that last save resolve, the store holds the state that is in
    memory after the sweep. *)
Theorem C5_sweep_then_resync admin env input q q1 store :
  Mutation env q input q1 →
  SafeNeeds q1 →
  (interactionCreate admin env input q).1 = (tryMatching (secondSave env) q1).1 ∧
  (∃ before between loop,
     (interactionCreate admin env input q).2
     = before ++ updateQueuesInRedis (firstSave env) q1 ++ between
       ++ logEvent AttemptingToMatch :: loop
       ++ updateQueuesInRedis (secondSave env) (interactionCreate admin env input q).1 ∧
     Forall (fun e => isRedisSet e = false) (before ++ between ++ loop)) ∧
  (secondSave env = SaveOk →
   loadQueues (runStore store (interactionCreate admin env input q).2)
   = (interactionCreate admin env input q).1).
Proof.
  intros Hmut _.
  assert (∃ before between,
    interactionCreate admin env input q
    = ((tryMatching (secondSave env) q1).1,
       before ++ updateQueuesInRedis (firstSave env) q1 ++ between
       ++ (tryMatching (secondSave env) q1).2) ∧
    Forall (fun e => isRedisSet e = false) (before ++ between)) as Hshape.
  { destruct Hmut as [user Hl Hm|user selectedValue n Hparse|user]; simpl.
    - unfold handleLookingForTeam. rewrite Hl, Hm.
      destruct (tryMatching (secondSave env) _) as [q2 tr].
      exists [interactionReply JoinRequestReceived; logEvent (AddedAsMember user)], [].
      split; [reflexivity | by repeat constructor].
    - unfold handleMemberCountSelect. rewrite Hparse.
      destruct (registerLeader env user n q) as [q1 logged] eqn:Hreg. simpl.
      destruct (tryMatching (secondSave env) q1) as [q2 tr].
      exists [logged], [interactionReply (NowTeamLeader n)].
      split; [reflexivity|]. unfold registerLeader in Hreg.
      destruct (findLeader user (teamLeaders q)); simplify_eq; by repeat constructor.
    - destruct (tryMatching (secondSave env) _) as [q2 tr].
      exists [logEvent (SwitchedToMember user)], [interactionReply AllegianceSwitched].
      split; [reflexivity | by repeat constructor]. }
  destruct Hshape as (before & between & -> & Hplain). simpl.
  destruct (tryMatching_trace (secondSave env) q1) as (loop & -> & Hloop).
  split; [done|]. split.
  - exists before, between, loop. split; [done|].
    rewrite app_assoc. apply Forall_app_2; [done | done].
  - intros ->.
    rewrite 2!app_assoc, app_comm_cons, app_assoc.
    rewrite runStore_app. apply save_then_load.
Qed.

Lemma C5_sweep_then_resync_witness :
  let q := mkQueues [Leader.mk "L" 2 [] 1] [] in
  let result := interactionCreate "admin" (okEnv 2) (Button "looking_for_team" "U") q in
  result.1 = mkQueues [Leader.mk "L" 1 ["U"] 1] [] ∧
  loadQueues (runStore ∅ result.2) = result.1.
Proof.
  intros q result.
  destruct (C5_sweep_then_resync "admin" (okEnv 2) (Button "looking_for_team" "U") q
              (mkQueues (teamLeaders q) (teamMembers q ++ [Member.mk "U" 2])) ∅)
    as (Hfinal & _ & Hstore).
  - apply (mutation_join (okEnv 2) q "U"); reflexivity.
  - unfold SafeNeeds. apply (bool_decide_unpack _). vm_compute. exact I.
  - split; [reflexivity|]. apply Hstore. reflexivity.
Defined.

(** ** The recruitment-need selection *)

Lemma findLeader_setLeaderNeed user n leaders entry :
  findLeader user leaders = Some entry →
  findLeader user (setLeaderNeed user n leaders)
  = Some (Leader.mk (Leader.userId entry) n (Leader.crew entry) (Leader.timestamp entry)).
Proof.
  unfold findLeader. induction leaders as [|l leaders IH]; simpl; [done|].
  destruct (decide (Leader.userId l = user)) as [Heq|Hne].
  - rewrite bool_decide_eq_true_2 by done. intros [= ->]. simpl.
    by rewrite bool_decide_eq_true_2.
  - rewrite bool_decide_eq_false_2 by done. intros Hfind. simpl.
    rewrite bool_decide_eq_false_2 by done. by apply IH.
Qed.

Lemma findLeader_new user leaders entry :
  Leader.userId entry = user →
  findLeader user leaders = None →
  findLeader user (leaders ++ [entry]) = Some entry.
Proof.
  intros Hid. unfold findLeader. induction leaders as [|l leaders IH]; simpl.
  - by rewrite bool_decide_eq_true_2.
  - destruct (bool_decide (Leader.userId l = user)); [done | apply IH].
Qed.

(** After the assignments of [handleMemberCountSelect] the user's leader
    entry needs what was selected, and the member queue is as it was. *)
Lemma registerLeader_entry env user n q :
  (∃ entry, findLeader user (teamLeaders (registerLeader env user n q).1) = Some entry ∧
            Leader.additionalNeeded entry = n) ∧
  teamMembers (registerLeader env user n q).1 = teamMembers q.
Proof.
  unfold registerLeader.
  destruct (findLeader user (teamLeaders q)) as [entry|] eqn:Hfind; simpl.
  - split; [|done]. eexists. split; [by apply findLeader_setLeaderNeed | done].
  - split; [|done]. eexists. split; [by apply findLeader_new | done].
Qed.

Lemma sweep_no_reply todo : ∀ done members,
  Forall (fun e => isReply e = false) (sweep done todo members).2.
Proof.
  induction todo as [|leader rest IH]; intros done members; simpl; [by constructor|].
  assert (Forall (fun e => isReply e = false) (recruit leader members).2) as Hplain.
  { destruct (recruit_spec members leader) as (popped & _ & _ & ->).
    apply Forall_fmap, Forall_true. done. }
  destruct (recruit leader members) as [[leader' members'] tr]. simpl in *.
  destruct (decide (Leader.additionalNeeded leader' = 0%Z)).
  - specialize (IH done members').
    destruct (sweep done rest members') as [q3 tr3]. simpl in *.
    apply Forall_app_2; [done|]. by repeat constructor.
  - specialize (IH (done ++ [leader']) members').
    destruct (sweep (done ++ [leader']) rest members') as [q3 tr3]. simpl in *.
    by apply Forall_app_2.
Qed.

Lemma tryMatching_no_reply o q :
  Forall (fun e => isReply e = false) (tryMatching o q).2.
Proof.
  rewrite tryMatching_sweep.
  pose proof (sweep_no_reply (teamLeaders q) [] (teamMembers q)) as Hplain.
  destruct (sweep [] (teamLeaders q) (teamMembers q)) as [q' tr]. simpl in *.
  constructor; [done|]. apply Forall_app_2; [done|].
  destruct o; by repeat constructor.
Qed.

(** C8 fails: the values "3" and "0" are outside {1, 2} and are accepted.
    "3" queues a leader that needs 3; "0" makes a leader whose team the
    sweep completes at once, with an empty crew. *)
Lemma C8_counterexample :
  parseInt "3" = Some 3%Z ∧
  ¬ RejectsSelection "3" ∧
  (interactionCreate "admin" (okEnv 1) (SelectMenu "select_member_count" "U" "3")
     emptyQueues).1 = mkQueues [Leader.mk "U" 3 [] 1] [] ∧
  parseInt "0" = Some 0%Z ∧
  ¬ RejectsSelection "0" ∧
  threadsCreated
    (interactionCreate "admin" (okEnv 1) (SelectMenu "select_member_count" "U" "0")
       emptyQueues).2 = [Leader.mk "U" 0 [] 1].
Proof.
  split; [reflexivity|]. split.
  { intros Hrej. specialize (Hrej "admin" (okEnv 1) "U" emptyQueues). discriminate. }
  split; [reflexivity|]. split; [reflexivity|]. split; [|reflexivity].
  intros Hrej. specialize (Hrej "admin" (okEnv 1) "U" emptyQueues). discriminate.
Qed.

(** C8, amended.  A selection that [parseInt] cannot read as a number is
    rejected with the notice and the queues are left as they are.  Every
    other selection is accepted, whatever the number [n] it parses to: no
    rejection notice is sent, the user is told that they are a leader
    needing [n], and the user's leader entry, created or updated, has
    [additionalNeeded = n] when the handler saves and sweeps. *)
Theorem C8_selection_validation admin env user selectedValue q :
  (parseInt selectedValue = None →
   interactionCreate admin env (SelectMenu "select_member_count" user selectedValue) q
   = (q, [interactionReply InvalidSelection])) ∧
  (∀ n, parseInt selectedValue = Some n →
     (∃ entry,
        findLeader user (teamLeaders (registerLeader env user n q).1) = Some entry ∧
        Leader.additionalNeeded entry = n) ∧
     teamMembers (registerLeader env user n q).1 = teamMembers q ∧
     (interactionCreate admin env (SelectMenu "select_member_count" user selectedValue) q).1
     = (tryMatching (secondSave env) (registerLeader env user n q).1).1 ∧
     interactionReply (NowTeamLeader n)
       ∈ (interactionCreate admin env
            (SelectMenu "select_member_count" user selectedValue) q).2 ∧
     interactionReply InvalidSelection
       ∉ (interactionCreate admin env
            (SelectMenu "select_member_count" user selectedValue) q).2).
Proof.
  simpl. unfold handleMemberCountSelect. split.
  - by intros ->.
  - intros n ->.
    destruct (registerLeader_entry env user n q) as [Hentry Hmembers].
    pose proof (tryMatching_no_reply (secondSave env) (registerLeader env user n q).1)
      as Hnoreply.
    assert (∀ o q', Forall (fun e => isReply e = false) (updateQueuesInRedis o q'))
      as Hsave by (intros [] ?; by repeat constructor).
    specialize (Hsave (firstSave env) (registerLeader env user n q).1).
    assert (isReply (registerLeader env user n q).2 = false) as Hlogged.
    { unfold registerLeader. by destruct (findLeader user (teamLeaders q)). }
    destruct (registerLeader env user n q) as [q1 logged]. simpl in *.
    destruct (tryMatching (secondSave env) q1) as [q2 tr]. simpl in *.
    split; [done|]. split; [done|]. split; [done|]. split.
    + right. apply elem_of_app. right. by left.
    + intros Hin. apply elem_of_cons in Hin as [Hin|Hin]; [by subst logged|].
      apply elem_of_app in Hin as [Hin|Hin].
      { rewrite Forall_forall in Hsave. by specialize (Hsave _ Hin). }
      apply elem_of_cons in Hin as [Hin|Hin]; [done|].
      rewrite Forall_forall in Hnoreply. by specialize (Hnoreply _ Hin).
Qed.

Lemma C8_selection_validation_witness :
  interactionCreate "admin" (okEnv 1) (SelectMenu "select_member_count" "U" "two")
    (mkQueues [] [Member.mk "A" 0])
  = (mkQueues [] [Member.mk "A" 0], [interactionReply InvalidSelection]) ∧
  interactionReply InvalidSelection
    ∉ (interactionCreate "admin" (okEnv 1) (SelectMenu "select_member_count" "U" "7")
         (mkQueues [] [Member.mk "A" 0])).2.
Proof.
  split.
  - apply (C8_selection_validation "admin" (okEnv 1) "U" "two"). reflexivity.
  - apply (C8_selection_validation "admin" (okEnv 1) "U" "7" (mkQueues [] [Member.mk "A" 0]))
      with (n := 7%Z). reflexivity.
Defined.

(** ** Switching from leader to member *)

Lemma findLeader_filtered user (leaders : list Leader.t) :
  findLeader user (filter (fun entry => Leader.userId entry ≠ user) leaders) = None.
Proof.
  unfold findLeader. induction leaders as [|l leaders IH]; [done|].
  destruct (decide (Leader.userId l = user)) as [Heq|Hne].
  - rewrite filter_cons_False by naive_solver. apply IH.
  - rewrite filter_cons_True by done. simpl.
    by rewrite bool_decide_eq_false_2.
Qed.

Lemma findLeader_Some user leaders entry :
  findLeader user leaders = Some entry → entry ∈ leaders ∧ Leader.userId entry = user.
Proof.
  unfold findLeader. induction leaders as [|l leaders IH]; simpl; [done|].
  destruct (decide (Leader.userId l = user)) as [Heq|Hne].
  - rewrite bool_decide_eq_true_2 by done. intros [= ->]. split; [by left | done].
  - rewrite bool_decide_eq_false_2 by done. intros Hfind.
    destruct (IH Hfind). split; [by right | done].
Qed.

(** C10.  When a queued leader presses [switch_to_team], the state that the
    handler saves and then sweeps is the old one with the user's leader
    entry gone, crew included (no entry with the user's id is left), the
    other leader entries as they were and in the same order (so no crew got
    anybody), and the member queue as it was followed by one new entry, for
    the user, stamped with the current time (so nobody of the crew is back
    in the queue). *)
Theorem C10_switch_to_member admin env user q entry :
  findLeader user (teamLeaders q) = Some entry →
  let q1 := switchToTeam env user q in
  interactionCreate admin env (Button "switch_to_team" user) q
  = ((tryMatching (secondSave env) q1).1,
     [logEvent (SwitchedToMember user)] ++ updateQueuesInRedis (firstSave env) q1
       ++ [interactionReply AllegianceSwitched] ++ (tryMatching (secondSave env) q1).2) ∧
  entry ∈ teamLeaders q ∧ (entry ∉ teamLeaders q1) ∧
  findLeader user (teamLeaders q1) = None ∧
  sublist (teamLeaders q1) (teamLeaders q) ∧
  (∀ other, other ∈ teamLeaders q → Leader.userId other ≠ user → other ∈ teamLeaders q1) ∧
  teamMembers q1 = teamMembers q ++ [Member.mk user (now env)].
Proof.
  intros Hfind q1.
  destruct (findLeader_Some _ _ _ Hfind) as [Hin Hid].
  split; [|split; [done|split; [|split; [|split; [|split]]]]].
  - simpl. fold q1. by destruct (tryMatching (secondSave env) q1).
  - intros [Hne _]%list_elem_of_filter. done.
  - apply findLeader_filtered.
  - apply sublist_filter.
  - intros other Hother Hne. apply list_elem_of_filter. done.
  - done.
Qed.

Lemma C10_switch_to_member_witness :
  let q := mkQueues [Leader.mk "K" 1 [] 1; Leader.mk "L" 1 ["M1"] 2] [] in
  let q1 := switchToTeam (okEnv 9) "L" q in
  q1 = mkQueues [Leader.mk "K" 1 [] 1] [Member.mk "L" 9] ∧
  (interactionCreate "admin" (okEnv 9) (Button "switch_to_team" "L") q).1
  = (tryMatching SaveOk q1).1.
Proof.
  intros q q1. split; [reflexivity|].
  destruct (C10_switch_to_member "admin" (okEnv 9) "L" q (Leader.mk "L" 1 ["M1"] 2))
    as (Hrun & _); [reflexivity|].
  fold q1 in Hrun. rewrite Hrun. reflexivity.
Defined.


(** * Further properties of the code *)

(** ** The sweep *)

(** X1.  The loop over the leaders ends within [teamLeaders.length]
    iterations, splices included: running it longer gives the same queues
    and the same effects. *)
Theorem leadersLoop_terminates fuel q :
  length (teamLeaders q) ≤ fuel →
  leadersLoop fuel 0 q = leadersLoop (length (teamLeaders q)) 0 q.
Proof.
  intros Hfuel. rewrite !leadersLoop_sweep by lia. done.
Qed.

Lemma leadersLoop_terminates_witness :
  let q := mkQueues [Leader.mk "L1" 1 [] 1; Leader.mk "L2" 2 [] 2]
                    [Member.mk "A" 3; Member.mk "B" 4] in
  leadersLoop 7 0 q = leadersLoop (length (teamLeaders q)) 0 q.
Proof.
  intros q. apply (leadersLoop_terminates 7 q). simpl. lia.
Defined.

(** A state in which no leader is complete and in which either nobody is
    queued as a member or no leader needs anybody is left alone by the
    loop, which then logs nothing. *)
Lemma sweep_fixed todo : ∀ kept members,
  Forall (fun l => ¬ Complete l) todo →
  members = [] ∨ Forall (fun l => (Leader.additionalNeeded l < 0)%Z) todo →
  sweep kept todo members = (mkQueues (kept ++ todo) members, []).
Proof.
  induction todo as [|leader rest IH]; intros kept members Hnone Hidle; simpl.
  - by rewrite app_nil_r.
  - apply Forall_cons in Hnone as [Hleader Hnone].
    assert (recruit leader members = (leader, members, [])) as ->.
    { destruct Hidle as [->|Hneg]; [done|].
      apply Forall_cons in Hneg as [Hneg _]. apply recruit_satisfied. lia. }
    destruct (decide (Leader.additionalNeeded leader = 0%Z)); [done|].
    rewrite IH; [by rewrite <- app_assoc | done |].
    destruct Hidle as [->|Hneg]; [by left | right].
    by apply Forall_cons in Hneg as [_ Hneg].
Qed.

Lemma sweep_settles todo : ∀ kept members,
  Forall (fun l => ¬ Complete l) kept →
  members = [] ∨ Forall (fun l => (Leader.additionalNeeded l < 0)%Z) kept →
  Forall (fun l => ¬ Complete l) (teamLeaders (sweep kept todo members).1) ∧
  (teamMembers (sweep kept todo members).1 = [] ∨
   Forall (fun l => (Leader.additionalNeeded l < 0)%Z)
          (teamLeaders (sweep kept todo members).1)).
Proof.
  induction todo as [|leader rest IH]; intros kept members Hnone Hidle; simpl; [done|].
  destruct (recruit_stop members leader) as [Hstop _].
  assert (members = [] → (recruit leader members).1.2 = []) as Hstay by (by intros ->).
  destruct (recruit leader members) as [[leader' members'] tr]. simpl in *.
  destruct (decide (Leader.additionalNeeded leader' = 0%Z)) as [Hzero|Hnonzero].
  - specialize (IH kept members' Hnone).
    destruct (sweep kept rest members') as [q3 tr3]. simpl in *.
    apply IH. destruct Hidle as [Hempty|Hneg]; [left; by apply Hstay | by right].
  - specialize (IH (kept ++ [leader']) members').
    destruct (sweep (kept ++ [leader']) rest members') as [q3 tr3]. simpl in *.
    apply IH.
    + apply Forall_app_2; [done|]. by apply Forall_singleton.
    + destruct Hstop as [Hle|Hempty]; [|by left].
      destruct Hidle as [Hnil|Hneg]; [left; by apply Hstay | right].
      apply Forall_app_2; [done|]. apply Forall_singleton. lia.
Qed.

Lemma tryMatching_settled o q :
  Forall (fun l => ¬ Complete l) (teamLeaders (tryMatching o q).1) ∧
  (teamMembers (tryMatching o q).1 = [] ∨
   Forall (fun l => (Leader.additionalNeeded l < 0)%Z) (teamLeaders (tryMatching o q).1)).
Proof.
  rewrite tryMatching_sweep.
  pose proof (sweep_settles (teamLeaders q) [] (teamMembers q)) as Hsettled.
  destruct (sweep [] (teamLeaders q) (teamMembers q)) as [q' tr]. simpl in *.
  apply Hsettled; [by constructor | right; by constructor].
Qed.

(** X2.  A sweep leaves no match unmade: afterwards no queued leader is
    complete, and either the member queue is empty or no queued leader
    needs anybody. *)
Theorem tryMatching_settles o q :
  Forall (fun l => ¬ Complete l) (teamLeaders (tryMatching o q).1) ∧
  (teamMembers (tryMatching o q).1 = [] ∨
   Forall (fun l => (Leader.additionalNeeded l < 0)%Z) (teamLeaders (tryMatching o q).1)).
Proof.
  rewrite tryMatching_sweep.
  pose proof (sweep_settles (teamLeaders q) [] (teamMembers q)) as Hsettled.
  destruct (sweep [] (teamLeaders q) (teamMembers q)) as [q' tr]. simpl in *.
  apply Hsettled; [by constructor | right; by constructor].
Qed.

(** X3.  The sweep is idempotent on every state: a second sweep right after
    a sweep changes neither queue and creates no thread. *)
Theorem tryMatching_idempotent o o' q :
  (tryMatching o' (tryMatching o q).1).1 = (tryMatching o q).1 ∧
  threadsCreated (tryMatching o' (tryMatching o q).1).2 = [].
Proof.
  destruct (tryMatching_settled o q) as [Hnone Hidle].
  destruct (tryMatching o q).1 as [leaders members]. simpl in *.
  rewrite tryMatching_sweep. simpl.
  rewrite sweep_fixed by done. simpl. split; [done|].
  destruct o'; done.
Qed.

(** The queues a sweep leaves do not depend on what Redis answers. *)
Lemma tryMatching_queues_outcome o o' q : (tryMatching o q).1 = (tryMatching o' q).1.
Proof.
  rewrite !tryMatching_sweep.
  by destruct (sweep [] (teamLeaders q) (teamMembers q)).
Qed.

Lemma recruit_closed_form members : ∀ leader,
  Leader.userId leader ∉ Member.userId <$> members →
  (recruit leader members).1
  = (Leader.mk (Leader.userId leader)
       (Leader.additionalNeeded leader
        - Z.of_nat (Z.to_nat (Leader.additionalNeeded leader) `min` length members))
       (Leader.crew leader
        ++ (Member.userId <$>
              take (Z.to_nat (Leader.additionalNeeded leader) `min` length members) members))
       (Leader.timestamp leader),
     drop (Z.to_nat (Leader.additionalNeeded leader) `min` length members) members).
Proof.
  induction members as [|member rest IH]; intros leader Hnotin.
  - simpl. rewrite Nat.min_0_r. simpl. rewrite app_nil_r, Z.sub_0_r. by destruct leader.
  - rewrite fmap_cons in Hnotin. apply not_elem_of_cons in Hnotin as [Hne Hnotin].
    simpl. destruct (decide (0 < Leader.additionalNeeded leader)%Z) as [Hpos|Hnpos].
    + destruct (decide (Member.userId member = Leader.userId leader)); [done|].
      set (leader1 := Leader.mk _ _ _ _).
      specialize (IH leader1 Hnotin).
      destruct (recruit leader1 rest) as [[leader2 members2] tr]. simpl in *.
      assert (Z.to_nat (Leader.additionalNeeded leader)
              = S (Z.to_nat (Leader.additionalNeeded leader - 1))) as -> by lia.
      simpl. injection IH as -> ->. f_equal. f_equal.
      * lia.
      * by rewrite <- app_assoc.
    + simpl. assert (Z.to_nat (Leader.additionalNeeded leader) = 0) as -> by lia.
      simpl. rewrite app_nil_r, Z.sub_0_r. by destruct leader.
Qed.

(** X4.  When no queued member has the leader's own id, the inner loop
    takes exactly the [min(additionalNeeded, teamMembers.length)] oldest
    members, nothing for a need that is not positive: their ids are put at
    the end of the crew in queue order, the need goes down by their number,
    the rest of the queue stays, and one line is logged per member taken,
    in the same order. *)
Theorem recruit_takes_oldest leader members :
  Leader.userId leader ∉ Member.userId <$> members →
  (recruit leader members).1
  = (Leader.mk (Leader.userId leader)
       (Leader.additionalNeeded leader
        - Z.of_nat (Z.to_nat (Leader.additionalNeeded leader) `min` length members))
       (Leader.crew leader
        ++ (Member.userId <$>
              take (Z.to_nat (Leader.additionalNeeded leader) `min` length members) members))
       (Leader.timestamp leader),
     drop (Z.to_nat (Leader.additionalNeeded leader) `min` length members) members) ∧
  (recruit leader members).2
  = (fun m => logEvent (Recruited (Leader.userId leader) (Member.userId m)))
      <$> take (Z.to_nat (Leader.additionalNeeded leader) `min` length members) members.
Proof.
  intros Hnotin. pose proof (recruit_closed_form members leader Hnotin) as Hform.
  split; [done|].
  destruct (recruit_spec members leader) as (popped & Hsplit & _ & ->).
  rewrite Hform in Hsplit. simpl in Hsplit.
  set (k := Z.to_nat (Leader.additionalNeeded leader) `min` length members) in *.
  assert (popped = take k members) as ->.
  { apply (app_inv_tail (drop k members)). by rewrite <- Hsplit, take_drop. }
  rewrite recruits_all.
  - by rewrite <- list_fmap_compose.
  - intros (m & Hid & Hin)%list_elem_of_fmap. apply Hnotin.
    apply list_elem_of_fmap. exists m. split; [done|].
    by apply (subseteq_take k members).
Qed.

Lemma recruit_takes_oldest_witness :
  (recruit (Leader.mk "L" 2 ["Z"] 1) [Member.mk "A" 2; Member.mk "B" 3; Member.mk "C" 4]).1
  = (Leader.mk "L" 0 ["Z"; "A"; "B"] 1, [Member.mk "C" 4]) ∧
  (recruit (Leader.mk "L" 2 ["Z"] 1) [Member.mk "A" 2; Member.mk "B" 3; Member.mk "C" 4]).2
  = [logEvent (Recruited "L" "A"); logEvent (Recruited "L" "B")].
Proof.
  apply (recruit_takes_oldest (Leader.mk "L" 2 ["Z"] 1)
           [Member.mk "A" 2; Member.mk "B" 3; Member.mk "C" 4]).
  apply (bool_decide_unpack _). vm_compute. exact I.
Defined.

(** ** What the handlers do to the queues *)

Lemma findLeader_None user leaders :
  findLeader user leaders = None ↔ user ∉ Leader.userId <$> leaders.
Proof.
  unfold findLeader. induction leaders as [|l leaders IH].
  - split; [intros _; apply not_elem_of_nil | done].
  - rewrite fmap_cons, not_elem_of_cons. simpl.
    destruct (decide (Leader.userId l = user)) as [Heq|Hne].
    + rewrite bool_decide_eq_true_2 by done. split; [done | intros [Hne _]; by destruct Hne].
    + rewrite bool_decide_eq_false_2 by done. rewrite IH. split; [by split | by intros [_ ?]].
Qed.

Lemma findMember_None user members :
  findMember user members = None ↔ user ∉ Member.userId <$> members.
Proof.
  unfold findMember. induction members as [|m members IH].
  - split; [intros _; apply not_elem_of_nil | done].
  - rewrite fmap_cons, not_elem_of_cons. simpl.
    destruct (decide (Member.userId m = user)) as [Heq|Hne].
    + rewrite bool_decide_eq_true_2 by done. split; [done | intros [Hne _]; by destruct Hne].
    + rewrite bool_decide_eq_false_2 by done. rewrite IH. split; [by split | by intros [_ ?]].
Qed.

Lemma threadsCreated_save o q : threadsCreated (updateQueuesInRedis o q) = [].
Proof. by destruct o. Qed.

Lemma threadsCreated_cons e tr :
  threadsCreated (e :: tr)
  = match e with
    | createTeamThread l => l :: threadsCreated tr
    | _ => threadsCreated tr
    end.
Proof. by destruct e. Qed.

Lemma sweep_no_members_threads todo : ∀ kept,
  threadsCreated (sweep kept todo []).2 = filter Complete todo.
Proof.
  induction todo as [|leader rest IH]; intros kept; simpl; [done|].
  destruct (decide (Leader.additionalNeeded leader = 0%Z)) as [Hzero|Hnonzero].
  - specialize (IH kept). destruct (sweep kept rest []) as [q3 tr3]. simpl in *.
    by rewrite filter_cons_True, IH.
  - specialize (IH (kept ++ [leader])).
    destruct (sweep (kept ++ [leader]) rest []) as [q3 tr3]. simpl in *.
    by rewrite filter_cons_False.
Qed.

(** X5.  A user who is in no queue presses "join a team" while leaders wait
    and nobody is queued as a member: the user goes straight into the crew
    of the oldest leader, whose need goes down by one; that leader's team
    is complete, and its thread created, exactly when it needed one; the
    other leaders and the empty member queue stay as they are. *)
Theorem join_goes_to_oldest_leader admin env user q leader rest :
  teamLeaders q = leader :: rest →
  teamMembers q = [] →
  (0 < Leader.additionalNeeded leader)%Z →
  Forall (fun l => ¬ Complete l) rest →
  user ∉ Leader.userId <$> teamLeaders q →
  let leader' :=
    Leader.mk (Leader.userId leader) (Leader.additionalNeeded leader - 1)
              (Leader.crew leader ++ [user]) (Leader.timestamp leader) in
  let result := interactionCreate admin env (Button "looking_for_team" user) q in
  result.1
  = mkQueues (if decide (Leader.additionalNeeded leader = 1%Z) then rest else leader' :: rest) [] ∧
  threadsCreated result.2
  = (if decide (Leader.additionalNeeded leader = 1%Z) then [leader'] else []).
Proof.
  intros Hleaders Hmembers Hpos Hrest Hnew leader' result. subst result. simpl.
  unfold handleLookingForTeam.
  apply findLeader_None in Hnew as Hfind. rewrite Hfind, Hmembers. simpl.
  rewrite tryMatching_sweep, Hleaders. simpl.
  rewrite Hleaders, fmap_cons in Hnew. apply not_elem_of_cons in Hnew as [Hne _].
  destruct (decide (0 < Leader.additionalNeeded leader)%Z); [|done].
  destruct (decide (user = Leader.userId leader)); [done|]. simpl.
  fold leader'.
  pose proof (sweep_no_members rest) as Hqueues.
  pose proof (sweep_no_members_threads rest) as Hthreads.
  rewrite (filter_all _ _ Hrest) in Hqueues.
  assert (filter Complete rest = []) as Hnone.
  { clear -Hrest. induction Hrest as [|l rest Hl _ IH]; [done|].
    by rewrite filter_cons_False. }
  rewrite Hnone in Hthreads.
  destruct (decide (Leader.additionalNeeded leader - 1 = 0)%Z) as [Hzero|Hnonzero].
  - specialize (Hqueues []). specialize (Hthreads []).
    destruct (sweep [] rest []) as [q3 tr3]. simpl in *.
    destruct (decide (Leader.additionalNeeded leader = 1%Z)); [|lia].
    split; [done|].
    rewrite threadsCreated_app, threadsCreated_save, !threadsCreated_cons.
    by rewrite threadsCreated_app, Hthreads, threadsCreated_save.
  - specialize (Hqueues [leader']). specialize (Hthreads [leader']).
    destruct (sweep [leader'] rest []) as [q3 tr3]. simpl in *.
    destruct (decide (Leader.additionalNeeded leader = 1%Z)); [lia|].
    split; [done|].
    rewrite threadsCreated_app, threadsCreated_save, !threadsCreated_cons.
    by rewrite threadsCreated_app, Hthreads, threadsCreated_save.
Qed.

Lemma join_goes_to_oldest_leader_witness :
  let q := mkQueues [Leader.mk "K" 1 ["A"] 1; Leader.mk "L" 2 [] 2] [] in
  let result := interactionCreate "admin" (okEnv 5) (Button "looking_for_team" "U") q in
  result.1 = mkQueues [Leader.mk "L" 2 [] 2] [] ∧
  threadsCreated result.2 = [Leader.mk "K" 0 ["A"; "U"] 1].
Proof.
  intros q.
  apply (join_goes_to_oldest_leader "admin" (okEnv 5) "U" q
           (Leader.mk "K" 1 ["A"] 1) [Leader.mk "L" 2 [] 2]);
    try reflexivity; apply (bool_decide_unpack _); vm_compute; exact I.
Defined.

(** X6.  "join a team" pressed by a user who is already queued, as a leader
    or as a member, changes nothing: the queues stay, the only effect is
    one reply, nothing is swept and nothing is written to Redis. *)
Theorem join_when_queued admin env user q :
  user ∈ Leader.userId <$> teamLeaders q ∨ user ∈ Member.userId <$> teamMembers q →
  ∃ notice,
    interactionCreate admin env (Button "looking_for_team" user) q
    = (q, [interactionReply notice]).
Proof.
  intros Hqueued. simpl. unfold handleLookingForTeam.
  destruct (findLeader user (teamLeaders q)) as [entry|] eqn:Hleader; [by eexists|].
  destruct (findMember user (teamMembers q)) as [entry|] eqn:Hmember; [by eexists|].
  apply findLeader_None in Hleader. apply findMember_None in Hmember.
  by destruct Hqueued.
Qed.

Lemma join_when_queued_witness :
  ∃ notice,
    interactionCreate "admin" (okEnv 5) (Button "looking_for_team" "A")
      (mkQueues [] [Member.mk "A" 1; Member.mk "B" 2])
    = (mkQueues [] [Member.mk "A" 1; Member.mk "B" 2], [interactionReply notice]).
Proof.
  apply (join_when_queued "admin" (okEnv 5) "A" (mkQueues [] [Member.mk "A" 1; Member.mk "B" 2])).
  right. apply (bool_decide_unpack _). vm_compute. exact I.
Defined.

(** X7.  Buttons other than [looking_for_team], [switch_to_team] and
    [switch_to_leader], whatever their id, leave the queues as they are,
    write nothing to Redis and create no thread; a select menu other than
    [select_member_count] does nothing at all. *)
Theorem other_components_read_only admin env user q :
  (∀ customId,
     customId ∉ ["looking_for_team"; "switch_to_team"; "switch_to_leader"] →
     (interactionCreate admin env (Button customId user) q).1 = q ∧
     Forall (fun e => isRedisSet e = false)
            (interactionCreate admin env (Button customId user) q).2 ∧
     threadsCreated (interactionCreate admin env (Button customId user) q).2 = []) ∧
  (∀ customId selectedValue,
     customId ≠ "select_member_count" →
     interactionCreate admin env (SelectMenu customId user selectedValue) q = (q, [])).
Proof.
  split.
  - intros customId Hother. rewrite !not_elem_of_cons in Hother.
    destruct Hother as (H1 & H2 & H3 & _). simpl.
    repeat case_decide; try done; try (by repeat constructor).
    + unfold handleLookingForMembersStart.
      destruct (findMember user (teamMembers q)); [by repeat constructor|].
      destruct (findLeader user (teamLeaders q)); by repeat constructor.
    + unfold handleConfirmTeam. destruct (inThread env); by repeat constructor.
    + unfold closeThread. destruct (inThread env); by repeat constructor.
  - intros customId selectedValue Hother. simpl. by case_decide.
Qed.

Lemma other_components_read_only_witness :
  let q := mkQueues [Leader.mk "L" 2 [] 1] [] in
  (interactionCreate "admin" (okEnv 5) (Button "update_recruitment" "L") q).1 = q ∧
  interactionCreate "admin" (okEnv 5) (SelectMenu "other_menu" "L" "1") q = (q, []).
Proof.
  intros q.
  destruct (other_components_read_only "admin" (okEnv 5) "L" q) as [Hbutton Hselect].
  split.
  - apply (Hbutton "update_recruitment").
    apply (bool_decide_unpack _). vm_compute. exact I.
  - apply (Hselect "other_menu" "1"). discriminate.
Defined.

(** X8.  A slash command changes the queues, writes to Redis or creates a
    thread only when it is [admin clear] or [admin match] sent by
    [ADMIN_USER_ID]: any other command, and any command of another user,
    leaves the queues alone and reaches neither Redis nor a thread. *)
Theorem only_admin_clears_or_matches admin env commandName user subcommand q :
  ¬ (commandName = "admin" ∧ user = admin ∧ (subcommand = "clear" ∨ subcommand = "match")) →
  (interactionCreate admin env (Command commandName user subcommand) q).1 = q ∧
  Forall (fun e => isRedisSet e = false)
         (interactionCreate admin env (Command commandName user subcommand) q).2 ∧
  threadsCreated (interactionCreate admin env (Command commandName user subcommand) q).2 = [].
Proof.
  intros Hother. simpl. unfold adminCommand.
  repeat case_decide; try done; try (by repeat constructor); naive_solver.
Qed.

Lemma only_admin_clears_or_matches_witness :
  let q := mkQueues [Leader.mk "L" 2 [] 1] [] in
  (interactionCreate "admin" (okEnv 5) (Command "admin" "mallory" "clear") q).1 = q.
Proof.
  intros q.
  apply (only_admin_clears_or_matches "admin" (okEnv 5) "admin" "mallory" "clear" q).
  intros (_ & Hadmin & _). discriminate.
Defined.

(** ** Invariants of the queues *)

Lemma setLeaderNeed_userIds id n leaders :
  Leader.userId <$> setLeaderNeed id n leaders = Leader.userId <$> leaders.
Proof.
  induction leaders as [|l leaders IH]; [done|]. simpl.
  destruct (decide (Leader.userId l = id)); [done|].
  by rewrite !fmap_cons, IH.
Qed.

Lemma registerLeader_NoDup env user n q :
  NoDup (Leader.userId <$> teamLeaders q) →
  NoDup (Leader.userId <$> teamLeaders (registerLeader env user n q).1).
Proof.
  intros Hnodup. unfold registerLeader.
  destruct (findLeader user (teamLeaders q)) eqn:Hfind; simpl.
  - by rewrite setLeaderNeed_userIds.
  - apply findLeader_None in Hfind. rewrite fmap_app. simpl.
    apply NoDup_app. split; [done|]. split; [|apply NoDup_singleton].
    intros id Hid Hin. apply list_elem_of_singleton in Hin. by subst.
Qed.

(** The ids of the leaders that a sweep leaves are ids that were queued, in
    the same order. *)
Lemma tryMatching_leader_ids o q :
  sublist (Leader.userId <$> teamLeaders (tryMatching o q).1)
          (Leader.userId <$> teamLeaders q).
Proof.
  destruct (tryMatching_results o q) as (results & Hall & _ & -> & _).
  rewrite <- (Served_userIds _ _ Hall). apply fmap_sublist, sublist_filter.
Qed.

Lemma tryMatching_NoDup o q :
  NoDup (Leader.userId <$> teamLeaders q) →
  NoDup (Leader.userId <$> teamLeaders (tryMatching o q).1).
Proof.
  intros Hnodup. apply (sublist_NoDup _ _ Hnodup), tryMatching_leader_ids.
Qed.

Lemma interactionCreate_NoDup admin env interaction q :
  NoDup (Leader.userId <$> teamLeaders q) →
  NoDup (Leader.userId <$> teamLeaders (interactionCreate admin env interaction q).1).
Proof.
  intros Hnodup.
  destruct interaction as [customId user|name user sub|customId user value]; simpl.
  - repeat case_decide; try done.
    + unfold handleLookingForTeam.
      destruct (findLeader user (teamLeaders q)); [done|].
      destruct (findMember user (teamMembers q)); [done|].
      set (q1 := mkQueues _ _).
      pose proof (tryMatching_NoDup (secondSave env) q1 Hnodup) as Hsweep.
      by destruct (tryMatching (secondSave env) q1).
    + unfold handleLookingForMembersStart.
      destruct (findMember user (teamMembers q)); [done|].
      by destruct (findLeader user (teamLeaders q)).
    + assert (NoDup (Leader.userId <$> teamLeaders (switchToTeam env user q))) as Hq1.
      { apply (sublist_NoDup _ _ Hnodup). simpl. apply fmap_sublist, sublist_filter. }
      pose proof (tryMatching_NoDup (secondSave env) _ Hq1) as Hsweep.
      by destruct (tryMatching (secondSave env) (switchToTeam env user q)).
  - case_decide; [|done]. unfold adminCommand.
    repeat case_decide; try done.
    + simpl. apply NoDup_nil_2.
    + pose proof (tryMatching_NoDup (firstSave env) q Hnodup) as Hsweep.
      by destruct (tryMatching (firstSave env) q).
  - case_decide; [|done]. unfold handleMemberCountSelect.
    destruct (parseInt value) as [n|]; [|done].
    pose proof (registerLeader_NoDup env user n q Hnodup) as Hreg.
    destruct (registerLeader env user n q) as [q1 logged].
    pose proof (tryMatching_NoDup (secondSave env) q1 Hreg) as Hsweep.
    by destruct (tryMatching (secondSave env) q1).
Qed.

(** X9.  A user never has two leader entries: if the ids in the leader
    queue are pairwise distinct they stay so through any list of
    interactions, whatever is selected and whatever Redis answers. *)
Theorem one_leader_entry_per_user admin inputs : ∀ w,
  NoDup (Leader.userId <$> teamLeaders (queues w)) →
  NoDup (Leader.userId <$> teamLeaders (queues (run admin w inputs))).
Proof.
  induction inputs as [|[env interaction] inputs IH]; intros w Hnodup; [done|].
  unfold run in *. simpl. apply IH. unfold step. simpl.
  pose proof (interactionCreate_NoDup admin env interaction (queues w) Hnodup) as Hone.
  by destruct (interactionCreate admin env interaction (queues w)).
Qed.

Lemma one_leader_entry_per_user_witness :
  NoDup (Leader.userId <$>
           teamLeaders (queues (run "admin" initialWorld
             [ (okEnv 1, SelectMenu "select_member_count" "U" "2");
               (okEnv 2, SelectMenu "select_member_count" "U" "-1");
               (okEnv 3, SelectMenu "select_member_count" "V" "1");
               (okEnv 4, SelectMenu "select_member_count" "U" "2") ]))).
Proof.
  apply (one_leader_entry_per_user "admin" _ initialWorld). apply NoDup_nil_2.
Defined.

(** X10.  Starting from empty queues, with the interactions handled one
    after the other, each handler run to its end, the sweep it calls
    included ([run]), and as long as no selection parses to a negative
    number: between two interactions one of the two queues is empty and
    every queued leader needs somebody, so a queued member does not wait
    while a leader could take them.  (A handler that ends at a rejected
    [interaction.update] leaves both queues filled, see [updateRejects].) *)
Theorem queues_at_rest admin store inputs :
  Forall (fun input : Env * Interaction => NonNegativeSelection input.2) inputs →
  Forall (fun l => (0 < Leader.additionalNeeded l)%Z)
         (teamLeaders (queues (run admin (mkWorld emptyQueues store) inputs))) ∧
  (teamLeaders (queues (run admin (mkWorld emptyQueues store) inputs)) = [] ∨
   teamMembers (queues (run admin (mkWorld emptyQueues store) inputs)) = []).
Proof.
  intros Hsel. apply run_AtRest; [done|]. split; [by constructor | by left].
Qed.

Lemma queues_at_rest_witness :
  AtRest (queues (run "admin" initialWorld
                    [ (okEnv 1, Button "looking_for_team" "A");
                      (okEnv 2, Button "looking_for_team" "B");
                      (okEnv 3, SelectMenu "select_member_count" "L" "1");
                      (okEnv 4, SelectMenu "select_member_count" "K" "7") ])).
Proof.
  apply (queues_at_rest "admin" ∅).
  repeat (constructor; [vm_compute; first [exact I | discriminate]|]). constructor.
Defined.









(** ** Becoming a leader, updating the need, leaving the member queue *)

(** X12.  A user who is in no queue selects a need [n] while nobody leads:
    the new leader takes the [min(n, teamMembers.length)] oldest members at
    once.  If that fills the need the team is complete, its thread is
    created and no leader is queued; otherwise the leader is queued with
    what is still needed.  The members that were not taken stay queued, in
    order. *)
Theorem select_takes_waiting_members admin env user selectedValue n q :
  teamLeaders q = [] →
  user ∉ Member.userId <$> teamMembers q →
  parseInt selectedValue = Some n →
  let k := Z.to_nat n `min` length (teamMembers q) in
  let leader' :=
    Leader.mk user (n - Z.of_nat k) (Member.userId <$> take k (teamMembers q)) (now env) in
  let result :=
    interactionCreate admin env (SelectMenu "select_member_count" user selectedValue) q in
  result.1 = mkQueues (if decide (Complete leader') then [] else [leader'])
                      (drop k (teamMembers q)) ∧
  threadsCreated result.2 = (if decide (Complete leader') then [leader'] else []).
Proof.
  intros Hleaders Hnew Hparse k leader' result. subst result. simpl.
  unfold handleMemberCountSelect, registerLeader. rewrite Hparse, Hleaders. simpl.
  rewrite tryMatching_sweep. simpl.
  pose proof (recruit_closed_form (teamMembers q) (Leader.mk user n [] (now env)) Hnew)
    as Hrecruit.
  pose proof (threadsCreated_recruit (Leader.mk user n [] (now env)) (teamMembers q))
    as Hquiet.
  simpl in Hrecruit. fold k in Hrecruit. fold leader' in Hrecruit.
  destruct (recruit _ (teamMembers q)) as [[leader2 members2] tr]. simpl in *.
  injection Hrecruit as -> ->. unfold Complete.
  destruct (decide (Leader.additionalNeeded leader' = 0%Z)); simpl.
  - split; [done|].
    rewrite threadsCreated_app, threadsCreated_save, !threadsCreated_cons.
    rewrite !threadsCreated_app, Hquiet, threadsCreated_save, !threadsCreated_cons.
    done.
  - split; [done|].
    rewrite threadsCreated_app, threadsCreated_save, !threadsCreated_cons.
    rewrite !threadsCreated_app, Hquiet, threadsCreated_save. done.
Qed.

Lemma select_takes_waiting_members_witness :
  let q := mkQueues [] [Member.mk "A" 1; Member.mk "B" 2; Member.mk "C" 3] in
  let result := interactionCreate "admin" (okEnv 9) (SelectMenu "select_member_count" "L" "2") q in
  result.1 = mkQueues [] [Member.mk "C" 3] ∧
  threadsCreated result.2 = [Leader.mk "L" 0 ["A"; "B"] 9].
Proof.
  intros q.
  apply (select_takes_waiting_members "admin" (okEnv 9) "L" "2" 2 q);
    [reflexivity | | reflexivity].
  apply (bool_decide_unpack _). vm_compute. exact I.
Defined.

Lemma setLeaderNeed_split user n leaders entry :
  findLeader user leaders = Some entry →
  ∃ before after,
    leaders = before ++ entry :: after ∧
    (user ∉ Leader.userId <$> before) ∧
    setLeaderNeed user n leaders
    = before ++ Leader.mk (Leader.userId entry) n (Leader.crew entry)
                          (Leader.timestamp entry) :: after.
Proof.
  unfold findLeader. induction leaders as [|l leaders IH]; simpl; [done|].
  destruct (decide (Leader.userId l = user)) as [Heq|Hne].
  - rewrite bool_decide_eq_true_2 by done. intros [= ->].
    exists [], leaders. split; [done|]. split; [apply not_elem_of_nil | done].
  - rewrite bool_decide_eq_false_2 by done. intros Hfind.
    destruct (IH Hfind) as (before & after & -> & Hnotin & ->).
    exists (l :: before), after. split; [done|]. split; [|done].
    rewrite fmap_cons. apply not_elem_of_cons. split; [by intros -> | done].
Qed.

(** X13.  A queued leader who selects a need [n] keeps the place in the
    queue, the crew and the timestamp: only [additionalNeeded] of the
    user's (first) entry is set to [n], and every other entry and the
    member queue are as before.  If nobody is queued as a member and no
    entry is complete after the update, that is also the state the handler
    leaves. *)
Theorem update_keeps_place_and_crew admin env user selectedValue n q entry :
  findLeader user (teamLeaders q) = Some entry →
  parseInt selectedValue = Some n →
  ∃ before after,
    teamLeaders q = before ++ entry :: after ∧
    (user ∉ Leader.userId <$> before) ∧
    (registerLeader env user n q).1
    = mkQueues (before ++ Leader.mk (Leader.userId entry) n (Leader.crew entry)
                                    (Leader.timestamp entry) :: after)
               (teamMembers q) ∧
    (teamMembers q = [] →
     Forall (fun l => ¬ Complete l) (teamLeaders (registerLeader env user n q).1) →
     (interactionCreate admin env (SelectMenu "select_member_count" user selectedValue) q).1
     = (registerLeader env user n q).1).
Proof.
  intros Hfind Hparse.
  destruct (setLeaderNeed_split user n _ _ Hfind) as (before & after & Hq & Hnotin & Hset).
  exists before, after. split; [done|]. split; [done|].
  assert ((registerLeader env user n q).1
          = mkQueues (setLeaderNeed user n (teamLeaders q)) (teamMembers q)) as Hreg.
  { unfold registerLeader. by rewrite Hfind. }
  split; [by rewrite Hreg, Hset|].
  intros Hempty Hnone. simpl. unfold handleMemberCountSelect. rewrite Hparse.
  destruct (registerLeader env user n q) as [q1 logged]. simpl in *.
  rewrite tryMatching_sweep.
  assert (teamMembers q1 = []) as Hm by (by subst q1).
  rewrite Hm, sweep_fixed by (done || by left). simpl. by destruct q1; simpl in *; subst.
Qed.

Lemma update_keeps_place_and_crew_witness :
  let q := mkQueues [Leader.mk "K" 1 [] 1; Leader.mk "L" 1 ["A"] 2; Leader.mk "M" 2 [] 3] [] in
  (interactionCreate "admin" (okEnv 9) (SelectMenu "select_member_count" "L" "2") q).1
  = mkQueues [Leader.mk "K" 1 [] 1; Leader.mk "L" 2 ["A"] 2; Leader.mk "M" 2 [] 3] [].
Proof.
  intros q.
  destruct (update_keeps_place_and_crew "admin" (okEnv 9) "L" "2" 2 q (Leader.mk "L" 1 ["A"] 2))
    as (before & after & _ & _ & Hreg & Hrun); [reflexivity | reflexivity |].
  rewrite Hrun; [reflexivity | reflexivity |].
  apply (bool_decide_unpack _). vm_compute. exact I.
Defined.

(** X14.  [switch_to_leader] takes every entry of the user out of the member
    queue and nothing else: the leader queue is untouched, the other
    members keep their order, the user is no member afterwards, and the
    only effect is the reply with the menu. *)
Theorem switch_to_leader_leaves_queue admin env user q :
  interactionCreate admin env (Button "switch_to_leader" user) q
  = (switchToLeader user q, [interactionReply TeamLeaderSetupMenu]) ∧
  teamLeaders (switchToLeader user q) = teamLeaders q ∧
  findMember user (teamMembers (switchToLeader user q)) = None ∧
  sublist (teamMembers (switchToLeader user q)) (teamMembers q) ∧
  (∀ m, m ∈ teamMembers q → Member.userId m ≠ user → m ∈ teamMembers (switchToLeader user q)).
Proof.
  split; [done|]. split; [done|]. split; [|split].
  - apply findMember_None. simpl. intros (m & Hid & Hin)%list_elem_of_fmap.
    apply list_elem_of_filter in Hin as [Hne _]. by subst.
  - apply sublist_filter.
  - intros m Hin Hne. by apply list_elem_of_filter.
Qed.

(** ** Redis *)

Lemma tryMatching_threads_outcome o o' q :
  threadsCreated (tryMatching o q).2 = threadsCreated (tryMatching o' q).2.
Proof.
  rewrite !tryMatching_sweep.
  destruct (sweep [] (teamLeaders q) (teamMembers q)) as [q' tr]. simpl.
  by rewrite !threadsCreated_app, !threadsCreated_save.
Qed.

(** X15.  What Redis answers never changes what a handler does to the
    queues or which threads it creates: two runs of a handler that read the
    same clock end with the same queues and create the same threads,
    whichever writes reject. *)
Theorem redis_failures_leave_queues env env' admin interaction q :
  sameClock env env' →
  (interactionCreate admin env interaction q).1
  = (interactionCreate admin env' interaction q).1 ∧
  threadsCreated (interactionCreate admin env interaction q).2
  = threadsCreated (interactionCreate admin env' interaction q).2.
Proof.
  unfold sameClock. intros Hclock.
  assert (∀ o o' q1 (pre pre' post post' : list Effect),
    threadsCreated pre = threadsCreated pre' →
    threadsCreated post = threadsCreated post' →
    (let '(q2, tr) := tryMatching o q1 in (q2, pre ++ tr ++ post)).1
    = (let '(q2, tr) := tryMatching o' q1 in (q2, pre' ++ tr ++ post')).1 ∧
    threadsCreated (let '(q2, tr) := tryMatching o q1 in (q2, pre ++ tr ++ post)).2
    = threadsCreated (let '(q2, tr) := tryMatching o' q1 in (q2, pre' ++ tr ++ post')).2)
    as Hsweep.
  { intros o o' q1 pre pre' post post' Hpre Hpost.
    pose proof (tryMatching_queues_outcome o o' q1) as Hq.
    pose proof (tryMatching_threads_outcome o o' q1) as Ht.
    destruct (tryMatching o q1) as [q2 tr], (tryMatching o' q1) as [q2' tr']. simpl in *.
    split; [done|]. by rewrite !threadsCreated_app, Hpre, Hpost, Ht. }
  destruct interaction as [customId user|name user sub|customId user value]; simpl.
  - repeat case_decide; try done.
    + unfold handleLookingForTeam. rewrite Hclock.
      destruct (findLeader user (teamLeaders q)); [done|].
      destruct (findMember user (teamMembers q)); [done|].
      set (q1 := mkQueues _ _).
      pose proof (Hsweep (secondSave env) (secondSave env') q1
        ([interactionReply JoinRequestReceived; logEvent (AddedAsMember user)]
           ++ updateQueuesInRedis (firstSave env) q1)
        ([interactionReply JoinRequestReceived; logEvent (AddedAsMember user)]
           ++ updateQueuesInRedis (firstSave env') q1) [] []) as Hgo.
      rewrite !threadsCreated_app, !threadsCreated_save in Hgo.
      specialize (Hgo eq_refl eq_refl).
      destruct (tryMatching (secondSave env) q1), (tryMatching (secondSave env') q1).
      simpl in *. by rewrite !app_nil_r in Hgo.
    + unfold handleConfirmTeam. by destruct (inThread env), (inThread env').
    + unfold closeThread. by destruct (inThread env), (inThread env').
    + assert (switchToTeam env user q = switchToTeam env' user q) as ->
        by (unfold switchToTeam; by rewrite Hclock).
      set (q1 := switchToTeam env' user q).
      pose proof (Hsweep (secondSave env) (secondSave env') q1
        ([logEvent (SwitchedToMember user)] ++ updateQueuesInRedis (firstSave env) q1
           ++ [interactionReply AllegianceSwitched])
        ([logEvent (SwitchedToMember user)] ++ updateQueuesInRedis (firstSave env') q1
           ++ [interactionReply AllegianceSwitched]) [] []) as Hgo.
      rewrite !threadsCreated_app, !threadsCreated_save in Hgo.
      specialize (Hgo eq_refl eq_refl).
      destruct (tryMatching (secondSave env) q1), (tryMatching (secondSave env') q1).
      simpl in *. rewrite !app_nil_r in Hgo. by rewrite <- !app_assoc in Hgo.
  - case_decide; [|done]. unfold adminCommand.
    repeat case_decide; try done.
    + simpl. by rewrite !threadsCreated_app, !threadsCreated_save.
    + pose proof (Hsweep (firstSave env) (firstSave env') q [] []
                    [interactionReply ForceMatchingExecuted]
                    [interactionReply ForceMatchingExecuted] eq_refl eq_refl) as Hgo.
      by destruct (tryMatching (firstSave env) q), (tryMatching (firstSave env') q).
  - case_decide; [|done]. unfold handleMemberCountSelect.
    destruct (parseInt value) as [n|]; [|done].
    assert (registerLeader env user n q = registerLeader env' user n q) as ->
      by (unfold registerLeader; by rewrite Hclock).
    destruct (registerLeader env' user n q) as [q1 logged].
    pose proof (Hsweep (secondSave env) (secondSave env') q1
      ([logged] ++ updateQueuesInRedis (firstSave env) q1
         ++ [interactionReply (NowTeamLeader n)])
      ([logged] ++ updateQueuesInRedis (firstSave env') q1
         ++ [interactionReply (NowTeamLeader n)]) [] []) as Hgo.
    rewrite !threadsCreated_app, !threadsCreated_save in Hgo.
    specialize (Hgo eq_refl eq_refl).
    destruct (tryMatching (secondSave env) q1), (tryMatching (secondSave env') q1).
    simpl in *. rewrite !app_nil_r in Hgo. by rewrite <- !app_assoc in Hgo.
Qed.

Lemma redis_failures_leave_queues_witness :
  let q := mkQueues [Leader.mk "L" 1 [] 1] [] in
  (interactionCreate "admin" (mkEnv 5 false LeadersSetRejects MembersSetRejects)
     (Button "looking_for_team" "A") q).1
  = (interactionCreate "admin" (okEnv 5) (Button "looking_for_team" "A") q).1.
Proof.
  intros q.
  apply (redis_failures_leave_queues (mkEnv 5 false LeadersSetRejects MembersSetRejects)
           (okEnv 5) "admin" (Button "looking_for_team" "A") q).
  reflexivity.
Defined.

Lemma runStore_plain store tr :
  Forall (fun e => isRedisSet e = false) tr → runStore store tr = store.
Proof.
  unfold runStore. revert store.
  induction tr as [|e tr IH]; intros store Hplain; [done|].
  apply Forall_cons in Hplain as [He Hplain]. simpl.
  rewrite IH by done. by destruct e.
Qed.

(** After a sweep whose save resolved, whatever came before it and as long
    as nothing is written after it, the store holds the queues the sweep
    left. *)
Lemma sweep_then_load store pre q post :
  Forall (fun e => isRedisSet e = false) post →
  loadQueues (runStore store (pre ++ (tryMatching SaveOk q).2 ++ post))
  = (tryMatching SaveOk q).1.
Proof.
  intros Hpost.
  destruct (tryMatching_trace SaveOk q) as (loop & -> & _).
  rewrite app_assoc, runStore_app, (runStore_plain _ post) by done.
  rewrite app_comm_cons, app_assoc, runStore_app. apply save_then_load.
Qed.

Lemma step_keeps_sync admin w env interaction :
  firstSave env = SaveOk → secondSave env = SaveOk →
  (∀ user, interaction ≠ Button "switch_to_leader" user) →
  InSync w → InSync (step admin w (env, interaction)).
Proof.
  intros Hfirst Hsecond Hother Hsync. unfold InSync, step in *. simpl.
  assert (∀ q1 pre post,
    Forall (fun e => isRedisSet e = false) post →
    loadQueues (redis (let '(q2, tr) := tryMatching SaveOk q1 in
                       mkWorld q2 (runStore (redis w) (pre ++ tr ++ post))))
    = queues (let '(q2, tr) := tryMatching SaveOk q1 in
              mkWorld q2 (runStore (redis w) (pre ++ tr ++ post)))) as Hsweep.
  { intros q1 pre post Hpost.
    pose proof (sweep_then_load (redis w) pre q1 post Hpost) as Hload.
    by destruct (tryMatching SaveOk q1). }
  destruct interaction as [customId user|name user sub|customId user value]; simpl.
  - repeat case_decide; try done; subst; try by (exfalso; eapply Hother).
    + unfold handleLookingForTeam.
      destruct (findLeader user (teamLeaders (queues w))); [done|].
      destruct (findMember user (teamMembers (queues w))); [done|].
      rewrite Hsecond. set (q1 := mkQueues _ _).
      specialize (Hsweep q1
        ([interactionReply JoinRequestReceived; logEvent (AddedAsMember user)]
           ++ updateQueuesInRedis (firstSave env) q1) [] (Forall_nil_2 _)).
      destruct (tryMatching SaveOk q1). simpl in *.
      by rewrite ?app_nil_r, <- ?app_assoc in Hsweep.
    + unfold handleLookingForMembersStart.
      destruct (findMember user (teamMembers (queues w))); [done|].
      by destruct (findLeader user (teamLeaders (queues w))).
    + simpl. rewrite runStore_plain; [done|].
      unfold handleConfirmTeam. destruct (inThread env); by repeat constructor.
    + simpl. rewrite runStore_plain; [done|].
      unfold closeThread. destruct (inThread env); by repeat constructor.
    + rewrite Hsecond. set (q1 := switchToTeam env user (queues w)).
      specialize (Hsweep q1
        ([logEvent (SwitchedToMember user)] ++ updateQueuesInRedis (firstSave env) q1
           ++ [interactionReply AllegianceSwitched]) [] (Forall_nil_2 _)).
      destruct (tryMatching SaveOk q1). simpl in *.
      by rewrite ?app_nil_r, <- ?app_assoc in Hsweep.
  - case_decide; [|done]. unfold adminCommand.
    repeat case_decide; try done.
    + rewrite Hfirst. simpl.
      unfold loadQueues. simpl.
      rewrite lookup_insert_ne by (symmetry; apply redis_keys_differ).
      by rewrite !lookup_insert_eq.
    + rewrite Hfirst.
      specialize (Hsweep (queues w) [] [interactionReply ForceMatchingExecuted]).
      destruct (tryMatching SaveOk (queues w)). simpl in *.
      apply Hsweep. by repeat constructor.
  - case_decide; [|done]. unfold handleMemberCountSelect.
    destruct (parseInt value) as [n|]; [|done].
    destruct (registerLeader env user n (queues w)) as [q1 logged]. rewrite Hsecond.
    specialize (Hsweep q1
      ([logged] ++ updateQueuesInRedis (firstSave env) q1
         ++ [interactionReply (NowTeamLeader n)]) [] (Forall_nil_2 _)).
    destruct (tryMatching SaveOk q1). simpl in *.
    by rewrite ?app_nil_r, <- ?app_assoc in Hsweep.
Qed.

(** The two values that the select menus offer are numbers that a double
    holds exactly. *)
Lemma menu_values_safe interaction : MenuSelection interaction → SafeSelection interaction.
Proof.
  destruct interaction as [| |customId user selectedValue]; try done.
  intros [->| ->]; vm_compute; done.
Qed.

(** X16.  A restart loses nothing while Redis is healthy and the needs are
    numbers that a double holds exactly: starting from a store that holds
    the queues in memory, with every queued need such a number, after any
    list of interactions, handled one after the other, whose writes all
    resolve, whose selections parse to such a number or to [NaN], and none
    of which is a [switch_to_leader] press, [loadQueues] on the store gives
    exactly the queues in memory.  (A selection of 309 digits or more is
    [Infinity] in the source and is written as [null]; [SafeSelection]
    leaves it out.) *)
Theorem restart_restores_queues admin inputs : ∀ w,
  InSync w →
  SafeNeeds (queues w) →
  Forall (fun input : Env * Interaction =>
            firstSave input.1 = SaveOk ∧ secondSave input.1 = SaveOk ∧
            SafeSelection input.2 ∧
            ∀ user, input.2 ≠ Button "switch_to_leader" user) inputs →
  loadQueues (redis (run admin w inputs)) = queues (run admin w inputs).
Proof.
  intros w Hsync _ Hok. revert w Hsync.
  induction inputs as [|[env interaction] inputs IH]; intros w Hsync; [done|].
  apply Forall_cons in Hok as [(Hfirst & Hsecond & _ & Hother) Hok].
  unfold run in *. simpl. apply IH; [done|].
  by apply step_keeps_sync.
Qed.

Lemma restart_restores_queues_witness :
  let w := run "admin" initialWorld
             [ (okEnv 1, Button "looking_for_team" "A");
               (okEnv 2, SelectMenu "select_member_count" "L" "2");
               (okEnv 3, Button "switch_to_team" "L");
               (okEnv 4, Command "admin" "admin" "match") ] in
  loadQueues (redis w) = queues w.
Proof.
  apply (restart_restores_queues "admin" _ initialWorld);
    [reflexivity | apply Forall_nil_2 |].
  repeat (constructor;
          [split; [reflexivity|split; [reflexivity|split; [|discriminate]]];
           first [exact I | apply (bool_decide_unpack _); vm_compute; exact I]|]).
  constructor.
Defined.

(** ** The team thread *)

Lemma teamAdds_app ops1 ops2 :
  Thread.teamAdds (ops1 ++ ops2) = Thread.teamAdds ops1 ++ Thread.teamAdds ops2.
Proof. apply omap_app. Qed.

Lemma missingNotices_app ops1 ops2 :
  Thread.missingNotices (ops1 ++ ops2)
  = Thread.missingNotices ops1 ++ Thread.missingNotices ops2.
Proof. apply omap_app. Qed.

Lemma panels_app ops1 ops2 :
  Thread.panels (ops1 ++ ops2) = Thread.panels ops1 ++ Thread.panels ops2.
Proof. apply omap_app. Qed.

(** The loop over the team calls [thread.members.add] once per id, in
    order, sends nothing, and collects the ids for which the call failed. *)
Lemma addTeam_spec d teamUserIds :
  Thread.teamAdds (Thread.addTeam d teamUserIds).1
  = (fun id => (id, Thread.addable d id)) <$> teamUserIds ∧
  (Thread.addTeam d teamUserIds).2
  = filter (fun id => Thread.addable d id = false) teamUserIds ∧
  Thread.missingNotices (Thread.addTeam d teamUserIds).1 = [] ∧
  Thread.panels (Thread.addTeam d teamUserIds).1 = [].
Proof.
  induction teamUserIds as [|id ids (IH1 & IH2 & IH3 & IH4)]; [done|]. simpl.
  destruct (Thread.addTeam d ids) as [ops missing]. simpl in *.
  destruct (Thread.addable d id) eqn:Hadd; simpl.
  - rewrite filter_cons_False by (by rewrite Hadd).
    split; [|done]. f_equal. exact IH1.
  - rewrite filter_cons_True by done.
    split; [f_equal; exact IH1|]. split; [by rewrite IH2 | done].
Qed.

Lemma addRoleMembers_quiet d roleMembers :
  Thread.teamAdds (Thread.addRoleMembers d roleMembers) = [] ∧
  Thread.missingNotices (Thread.addRoleMembers d roleMembers) = [] ∧
  Thread.panels (Thread.addRoleMembers d roleMembers) = [].
Proof.
  unfold Thread.addRoleMembers.
  induction roleMembers as [|id ids (IH1 & IH2 & IH3)]; [done|].
  rewrite bind_cons, teamAdds_app, missingNotices_app, panels_app, IH1, IH2, IH3.
  by destruct (Thread.addable d id).
Qed.

Lemma getMemberNames_cons d id ids :
  Thread.getMemberNames d (id :: ids)
  = Thread.getMemberNames d [id] ++ Thread.getMemberNames d ids.
Proof. unfold Thread.getMemberNames. by destruct (Thread.guild d). Qed.

Lemma getMemberNames_one d id :
  ∃ name, Thread.getMemberNames d [id] = [name].
Proof. unfold Thread.getMemberNames. destruct (Thread.guild d); by eexists. Qed.

(** X17.  Once the lobby channel is found and the thread is created,
    [thread.members.add] is called for the leader first and then for every
    crew member in recruitment order, each exactly once, whether or not
    earlier calls failed and whatever happens afterwards. *)
Theorem team_added_leader_first d leader :
  Thread.channel d = Some true →
  Thread.threadCreated d = true →
  Thread.teamAdds (Thread.createTeamThread d leader)
  = (fun id => (id, Thread.addable d id)) <$> (Leader.userId leader :: Leader.crew leader).
Proof.
  intros Hchannel Hthread. unfold Thread.createTeamThread. rewrite Hchannel, Hthread.
  destruct (addTeam_spec d (Leader.userId leader :: Leader.crew leader)) as (Hadds & _).
  destruct (Thread.addTeam d (Leader.userId leader :: Leader.crew leader))
    as [added missing]. simpl in Hadds.
  destruct (Thread.guild d); [destruct (Thread.guildMembers d) as [members|]|]; simpl.
  - pose proof (addRoleMembers_quiet d (filter (fun m => m.2 = true) members).*1)
      as (Hrole & _).
    unfold Thread.teamAdds in *. simpl. rewrite !omap_app, Hadds, Hrole.
    destruct missing; simpl; by rewrite app_nil_r.
  - unfold Thread.teamAdds in *. simpl. rewrite omap_app, Hadds. simpl.
    by rewrite app_nil_r.
  - unfold Thread.teamAdds in *. simpl. rewrite !omap_app, Hadds.
    destruct missing; simpl; by rewrite app_nil_r.
Qed.

Lemma team_added_leader_first_witness :
  Thread.teamAdds (Thread.createTeamThread someDiscord (Leader.mk "L" 0 ["A"; "B"] 1))
  = [("L", true); ("A", true); ("B", false)].
Proof.
  apply (team_added_leader_first someDiscord (Leader.mk "L" 0 ["A"; "B"] 1)); reflexivity.
Defined.

(** X18.  When the thread is set up to the end (channel found, thread
    created, and the guild members listed if the guild is cached), the
    notice about users to add by hand is sent exactly when
    [thread.members.add] failed for somebody of the team, once, and it
    names exactly those users, in team order; a role member that could not
    be added is never mentioned. *)
Theorem missing_notice_names_failed_adds d leader :
  Thread.channel d = Some true →
  Thread.threadCreated d = true →
  (Thread.guild d = true → is_Some (Thread.guildMembers d)) →
  Thread.missingNotices (Thread.createTeamThread d leader)
  = match filter (fun id => Thread.addable d id = false)
                 (Leader.userId leader :: Leader.crew leader) with
    | [] => []
    | missingUsers => [Thread.join (Thread.getMemberNames d missingUsers)]
    end.
Proof.
  intros Hchannel Hthread Hguild. unfold Thread.createTeamThread.
  rewrite Hchannel, Hthread.
  destruct (addTeam_spec d (Leader.userId leader :: Leader.crew leader))
    as (_ & Hmissing & Hquiet & _).
  destruct (Thread.addTeam d (Leader.userId leader :: Leader.crew leader))
    as [added missing]. simpl in Hmissing, Hquiet. rewrite <- Hmissing.
  assert (∀ roleAdded, Thread.missingNotices roleAdded = [] →
    Thread.missingNotices
      (Thread.createThread
         (String.append "team: "
            (Thread.join (Thread.getMemberNames d
                            (Leader.userId leader :: Leader.crew leader)))) true
       :: added ++ roleAdded
       ++ (match missing with
           | [] => []
           | _ => [Thread.sendMissing (Thread.join (Thread.getMemberNames d missing))]
           end)
       ++ [ Thread.sendPanel
              (Thread.join (Thread.getMemberNames d
                              (Leader.userId leader :: Leader.crew leader)))
              (default "" (head (Thread.getMemberNames d
                                   (Leader.userId leader :: Leader.crew leader))))
              (Thread.join (tail (Thread.getMemberNames d
                                    (Leader.userId leader :: Leader.crew leader))));
            Thread.logThreadCreated (Leader.userId leader) ])
    = match missing with
      | [] => []
      | u :: l => [Thread.join (Thread.getMemberNames d (u :: l))]
      end) as Hshape.
  { intros roleAdded Hrole.
    change (Thread.missingNotices (?op :: ?l)) with (Thread.missingNotices l).
    rewrite !missingNotices_app, Hquiet, Hrole. by destruct missing. }
  destruct (Thread.guild d).
  - destruct (Hguild eq_refl) as [members ->].
    apply (Hshape (Thread.addRoleMembers d (filter (fun m => m.2 = true) members).*1)).
    apply addRoleMembers_quiet.
  - by apply (Hshape []).
Qed.

Lemma missing_notice_names_failed_adds_witness :
  Thread.missingNotices (Thread.createTeamThread someDiscord (Leader.mk "L" 0 ["A"; "B"] 1))
  = ["B"].
Proof.
  apply (missing_notice_names_failed_adds someDiscord (Leader.mk "L" 0 ["A"; "B"] 1));
    [reflexivity | reflexivity | intros _; by eexists].
Defined.

(** X19.  When the thread is set up to the end, one confirmation panel is
    sent: its content lists the names of the whole team, leader first, it
    names as leader the name of [leader.userId] and as team the names of
    the crew in recruitment order; the thread was created under the name
    "team: " followed by the same list, and the last thing done is the log
    line for the leader. *)
Theorem panel_names_leader_and_crew d leader :
  Thread.channel d = Some true →
  Thread.threadCreated d = true →
  (Thread.guild d = true → is_Some (Thread.guildMembers d)) →
  Thread.panels (Thread.createTeamThread d leader)
  = [ (Thread.join (Thread.getMemberNames d (Leader.userId leader :: Leader.crew leader)),
       Thread.join (Thread.getMemberNames d [Leader.userId leader]),
       Thread.join (Thread.getMemberNames d (Leader.crew leader))) ] ∧
  head (Thread.createTeamThread d leader)
  = Some (Thread.createThread
            (String.append "team: "
               (Thread.join (Thread.getMemberNames d
                               (Leader.userId leader :: Leader.crew leader)))) true) ∧
  last (Thread.createTeamThread d leader)
  = Some (Thread.logThreadCreated (Leader.userId leader)).
Proof.
  intros Hchannel Hthread Hguild. unfold Thread.createTeamThread.
  rewrite Hchannel, Hthread.
  destruct (addTeam_spec d (Leader.userId leader :: Leader.crew leader))
    as (_ & _ & _ & Hquiet).
  destruct (Thread.addTeam d (Leader.userId leader :: Leader.crew leader))
    as [added missing]. simpl in Hquiet.
  rewrite (getMemberNames_cons d (Leader.userId leader)).
  destruct (getMemberNames_one d (Leader.userId leader)) as [name ->]. simpl.
  assert (Thread.join [name] = name) as -> by done.
  assert (∀ roleAdded, Thread.panels roleAdded = [] →
    let ops :=
      Thread.createThread
        (String.append "team: "
           (Thread.join (name :: Thread.getMemberNames d (Leader.crew leader)))) true
      :: added ++ roleAdded
      ++ (match missing with
          | [] => []
          | _ => [Thread.sendMissing (Thread.join (Thread.getMemberNames d missing))]
          end)
      ++ [ Thread.sendPanel
             (Thread.join (name :: Thread.getMemberNames d (Leader.crew leader)))
             name (Thread.join (Thread.getMemberNames d (Leader.crew leader)));
           Thread.logThreadCreated (Leader.userId leader) ] in
    Thread.panels ops
    = [ (Thread.join (name :: Thread.getMemberNames d (Leader.crew leader)), name,
         Thread.join (Thread.getMemberNames d (Leader.crew leader))) ] ∧
    last ops = Some (Thread.logThreadCreated (Leader.userId leader))) as Hshape.
  { intros roleAdded Hrole ops. subst ops. split.
    - change (Thread.panels (?op :: ?l)) with (Thread.panels l).
      rewrite !panels_app, Hquiet, Hrole. by destruct missing.
    - rewrite app_comm_cons, !app_assoc.
      change [?a; ?b] with ([a] ++ [b]). rewrite app_assoc. apply last_snoc. }
  destruct (Thread.guild d).
  - destruct (Hguild eq_refl) as [members ->].
    destruct (Hshape (Thread.addRoleMembers d (filter (fun m => m.2 = true) members).*1)
                (proj2 (proj2 (addRoleMembers_quiet d _)))) as [Hpanels Hlast].
    split; [exact Hpanels | split; [reflexivity | exact Hlast]].
  - destruct (Hshape [] eq_refl) as [Hpanels Hlast].
    split; [exact Hpanels | split; [reflexivity | exact Hlast]].
Qed.

Lemma panel_names_leader_and_crew_witness :
  Thread.panels (Thread.createTeamThread someDiscord (Leader.mk "L" 0 ["A"; "B"] 1))
  = [("L, Alice, B", "L", "Alice, B")].
Proof.
  apply (panel_names_leader_and_crew someDiscord (Leader.mk "L" 0 ["A"; "B"] 1));
    [reflexivity | reflexivity | intros _; by eexists].
Defined.

(** X20.  When the lobby channel cannot be had, or the thread cannot be
    created, nobody is added and nothing is sent: at most the attempt to
    create the thread and one error line are left. *)
Theorem no_thread_no_members d leader :
  Thread.channel d ≠ Some true ∨ Thread.threadCreated d = false →
  Forall (fun op => Thread.touchesThread op = false) (Thread.createTeamThread d leader) ∧
  length (Thread.createTeamThread d leader) ≤ 2.
Proof.
  intros Hfail. unfold Thread.createTeamThread.
  destruct (Thread.channel d) as [[]|]; [|split; [by constructor | simpl; lia]..].
  destruct Hfail as [Hno| ->]; [done|].
  split; [by repeat constructor | simpl; lia].
Qed.

Lemma no_thread_no_members_witness :
  Forall (fun op => Thread.touchesThread op = false)
         (Thread.createTeamThread
            (Thread.mkDiscord (Some true) true (fun _ => None) false (fun _ => true) (Some []))
            (Leader.mk "L" 0 ["A"] 1)).
Proof.
  apply (no_thread_no_members
           (Thread.mkDiscord (Some true) true (fun _ => None) false (fun _ => true) (Some []))
           (Leader.mk "L" 0 ["A"] 1)).
  right. reflexivity.
Defined.

(** X21.  When the guild is cached and listing its members fails, the team
    has already been added but the setup stops there: no notice about the
    users that could not be added and no confirmation panel is sent, and
    the last thing done is the error line. *)
Theorem fetch_failure_skips_notice_and_panel d leader :
  Thread.channel d = Some true →
  Thread.threadCreated d = true →
  Thread.guild d = true →
  Thread.guildMembers d = None →
  Thread.missingNotices (Thread.createTeamThread d leader) = [] ∧
  Thread.panels (Thread.createTeamThread d leader) = [] ∧
  last (Thread.createTeamThread d leader) = Some Thread.logError.
Proof.
  intros Hchannel Hthread Hguild Hfetch. unfold Thread.createTeamThread.
  rewrite Hchannel, Hthread, Hguild, Hfetch.
  destruct (addTeam_spec d (Leader.userId leader :: Leader.crew leader))
    as (_ & _ & Hnotices & Hpanels).
  destruct (Thread.addTeam d (Leader.userId leader :: Leader.crew leader))
    as [added missing]. simpl in *.
  split; [|split].
  - change (Thread.missingNotices (?op :: ?l)) with (Thread.missingNotices l).
    by rewrite missingNotices_app, Hnotices.
  - change (Thread.panels (?op :: ?l)) with (Thread.panels l).
    by rewrite panels_app, Hpanels.
  - rewrite app_comm_cons. apply last_snoc.
Qed.

Lemma fetch_failure_skips_notice_and_panel_witness :
  let d := Thread.mkDiscord (Some true) true (fun _ => None) true (fun _ => false) None in
  Thread.missingNotices (Thread.createTeamThread d (Leader.mk "L" 0 ["A"] 1)) = [] ∧
  Thread.panels (Thread.createTeamThread d (Leader.mk "L" 0 ["A"] 1)) = [] ∧
  last (Thread.createTeamThread d (Leader.mk "L" 0 ["A"] 1)) = Some Thread.logError.
Proof.
  intros d.
  apply (fetch_failure_skips_notice_and_panel d (Leader.mk "L" 0 ["A"] 1)); reflexivity.
Defined.

(** ** Selections and stale buttons *)

Lemma digitValue_nonneg c d : digitValue c = Some d → (0 ≤ d)%Z.
Proof.
  unfold digitValue. case_decide; [|done]. intros [= <-]. lia.
Qed.

Lemma digits_nonneg s : ∀ acc n,
  (∀ a, acc = Some a → (0 ≤ a)%Z) →
  digits acc s = Some n → (0 ≤ n)%Z.
Proof.
  induction s as [|c s IH]; intros acc n Hacc; simpl.
  - apply Hacc.
  - destruct (digitValue c) as [d|] eqn:Hd; [|apply Hacc].
    apply IH. intros a [= <-]. apply digitValue_nonneg in Hd.
    destruct acc as [a|]; simpl; [specialize (Hacc a eq_refl)|]; lia.
Qed.

(** X22.  A selection parses to a negative number only if, after the
    leading white space, it starts with a minus sign. *)
Theorem negative_selection_has_minus selectedValue n :
  parseInt selectedValue = Some n →
  (n < 0)%Z →
  ∃ rest, trimStart selectedValue = String "-"%char rest.
Proof.
  unfold parseInt. intros Hparse Hneg.
  destruct (trimStart selectedValue) as [|c rest]; [done|].
  destruct (decide (c = "-"%char)) as [->|Hc]; [by eexists|]. exfalso.
  assert (∃ s, digits None s = Some n) as [s Hdigits].
  { destruct c as [[] [] [] [] [] [] [] []];
      first [by destruct Hc | by eexists]. }
  apply digits_nonneg in Hdigits; [lia | done].
Qed.

Lemma negative_selection_has_minus_witness :
  ∃ rest, trimStart "  -3 members" = String "-"%char rest.
Proof.
  apply (negative_selection_has_minus "  -3 members" (-3)); [reflexivity | lia].
Defined.

(** X23.  The [switch_to_team] button does not look at the member queue:
    pressed while nobody leads, it appends an entry for the user whether or
    not the user is a leader, so a user who is already queued as a member
    is queued twice. *)
Theorem switch_to_team_can_duplicate admin env user q :
  teamLeaders q = [] →
  (interactionCreate admin env (Button "switch_to_team" user) q).1
  = mkQueues [] (teamMembers q ++ [Member.mk user (now env)]) ∧
  (user ∈ Member.userId <$> teamMembers q →
   ¬ NoDup (Member.userId <$>
              teamMembers (interactionCreate admin env (Button "switch_to_team" user) q).1)).
Proof.
  intros Hleaders.
  assert ((interactionCreate admin env (Button "switch_to_team" user) q).1
          = mkQueues [] (teamMembers q ++ [Member.mk user (now env)])) as Hrun.
  { simpl. rewrite tryMatching_sweep. simpl. by rewrite Hleaders. }
  split; [done|]. rewrite Hrun. simpl. intros Hin Hnodup.
  rewrite fmap_app in Hnodup. apply NoDup_app in Hnodup as (_ & Hdisjoint & _).
  apply (Hdisjoint user Hin). by left.
Qed.

Lemma switch_to_team_can_duplicate_witness :
  let q := mkQueues [] [Member.mk "A" 1] in
  (interactionCreate "admin" (okEnv 2) (Button "switch_to_team" "A") q).1
  = mkQueues [] [Member.mk "A" 1; Member.mk "A" 2].
Proof.
  intros q.
  apply (switch_to_team_can_duplicate "admin" (okEnv 2) "A" q). reflexivity.
Defined.

(** ** Crews *)

Lemma Served_NotOwnCrew l l' popped :
  Served l l' popped → NotOwnCrew l → NotOwnCrew l'.
Proof.
  unfold NotOwnCrew. intros (-> & _ & -> & _) Hl.
  apply not_elem_of_app. split; [done|].
  unfold recruits. intros [Hne _]%list_elem_of_filter. done.
Qed.

Lemma tryMatching_NotOwnCrew o q :
  Forall NotOwnCrew (teamLeaders q) →
  Forall NotOwnCrew (teamLeaders (tryMatching o q).1) ∧
  Forall NotOwnCrew (threadsCreated (tryMatching o q).2).
Proof.
  intros Hall.
  destruct (tryMatching_results o q) as (results & Hserved & _ & -> & ->).
  assert (Forall NotOwnCrew results.*1) as Hresults.
  { revert Hall. induction Hserved as [|l r leaders results Hone _ IH]; intros Hall;
      [by constructor|].
    apply Forall_cons in Hall as [Hl Hall]. rewrite fmap_cons.
    constructor; [by eapply Served_NotOwnCrew | by apply IH]. }
  rewrite Forall_forall in Hresults.
  split; apply Forall_forall; intros l [_ Hin]%list_elem_of_filter; by apply Hresults.
Qed.

Lemma setLeaderNeed_NotOwnCrew id n leaders :
  Forall NotOwnCrew leaders → Forall NotOwnCrew (setLeaderNeed id n leaders).
Proof.
  induction 1 as [|l leaders Hl Hrest IH]; simpl; [by constructor|].
  destruct (decide (Leader.userId l = id)); by constructor.
Qed.

(** X24.  No team lists its leader among the crew: if that holds of the
    queued leaders before an interaction, it holds of the queued leaders
    after it and of every team for which the interaction creates a
    thread. *)
Theorem leader_never_in_own_crew admin env interaction q :
  Forall NotOwnCrew (teamLeaders q) →
  Forall NotOwnCrew (teamLeaders (interactionCreate admin env interaction q).1) ∧
  Forall NotOwnCrew (threadsCreated (interactionCreate admin env interaction q).2).
Proof.
  intros Hall.
  assert (∀ o q1 (pre post : list Effect),
    Forall NotOwnCrew (teamLeaders q1) →
    threadsCreated pre = [] → threadsCreated post = [] →
    Forall NotOwnCrew
      (teamLeaders (let '(q2, tr) := tryMatching o q1 in (q2, pre ++ tr ++ post)).1) ∧
    Forall NotOwnCrew
      (threadsCreated (let '(q2, tr) := tryMatching o q1 in (q2, pre ++ tr ++ post)).2))
    as Hsweep.
  { intros o q1 pre post Hq1 Hpre Hpost.
    destruct (tryMatching_NotOwnCrew o q1 Hq1) as [Hleaders Hthreads].
    destruct (tryMatching o q1) as [q2 tr]. simpl in *.
    split; [done|]. by rewrite !threadsCreated_app, Hpre, Hpost, app_nil_r. }
  destruct interaction as [customId user|name user sub|customId user value]; simpl.
  - repeat case_decide; try (split; [done | by constructor]).
    + unfold handleLookingForTeam.
      destruct (findLeader user (teamLeaders q)); [split; [done | by constructor]|].
      destruct (findMember user (teamMembers q)); [split; [done | by constructor]|].
      set (q1 := mkQueues _ _).
      specialize (Hsweep (secondSave env) q1
        ([interactionReply JoinRequestReceived; logEvent (AddedAsMember user)]
           ++ updateQueuesInRedis (firstSave env) q1) [] Hall).
      rewrite threadsCreated_app, threadsCreated_save in Hsweep.
      specialize (Hsweep eq_refl eq_refl).
      destruct (tryMatching (secondSave env) q1). simpl in *.
      by rewrite ?app_nil_r in Hsweep.
    + unfold handleLookingForMembersStart.
      destruct (findMember user (teamMembers q)); [split; [done | by constructor]|].
      destruct (findLeader user (teamLeaders q)); split; done || by constructor.
    + split; [done|]. unfold handleConfirmTeam.
      destruct (inThread env); by constructor.
    + split; [done|]. unfold closeThread. destruct (inThread env); by constructor.
    + assert (Forall NotOwnCrew (teamLeaders (switchToTeam env user q))) as Hq1.
      { simpl. apply Forall_forall. intros l [_ Hl]%list_elem_of_filter.
        rewrite Forall_forall in Hall. by apply Hall. }
      specialize (Hsweep (secondSave env) (switchToTeam env user q)
        ([logEvent (SwitchedToMember user)]
           ++ updateQueuesInRedis (firstSave env) (switchToTeam env user q)
           ++ [interactionReply AllegianceSwitched]) [] Hq1).
      rewrite !threadsCreated_app, threadsCreated_save in Hsweep.
      specialize (Hsweep eq_refl eq_refl).
      destruct (tryMatching (secondSave env) (switchToTeam env user q)). simpl in *.
      by rewrite ?app_nil_r, <- ?app_assoc in Hsweep.
  - case_decide; [|split; [done | by constructor]]. unfold adminCommand.
    repeat case_decide; try (split; [done | by constructor]).
    + simpl. split; [by constructor|].
      by rewrite threadsCreated_app, threadsCreated_save.
    + specialize (Hsweep (firstSave env) q [] [interactionReply ForceMatchingExecuted]
                         Hall eq_refl eq_refl).
      by destruct (tryMatching (firstSave env) q).
  - case_decide; [|split; [done | by constructor]]. unfold handleMemberCountSelect.
    destruct (parseInt value) as [n|]; [|split; [done | by constructor]].
    assert (Forall NotOwnCrew (teamLeaders (registerLeader env user n q).1)
            ∧ threadsCreated [(registerLeader env user n q).2] = []) as [Hreg Hlogged].
    { unfold registerLeader. destruct (findLeader user (teamLeaders q)); simpl.
      - split; [by apply setLeaderNeed_NotOwnCrew | done].
      - split; [|done]. apply Forall_app_2; [done|]. apply Forall_singleton.
        unfold NotOwnCrew. simpl. apply not_elem_of_nil. }
    destruct (registerLeader env user n q) as [q1 logged].
    change (threadsCreated [logged] = []) in Hlogged.
    specialize (Hsweep (secondSave env) q1
      ([logged] ++ updateQueuesInRedis (firstSave env) q1
         ++ [interactionReply (NowTeamLeader n)]) [] Hreg).
    rewrite !threadsCreated_app, threadsCreated_save, Hlogged in Hsweep.
    specialize (Hsweep eq_refl eq_refl).
    destruct (tryMatching (secondSave env) q1). simpl in *.
    by rewrite ?app_nil_r, <- ?app_assoc in Hsweep.
Qed.

Lemma leader_never_in_own_crew_witness :
  let q := mkQueues [Leader.mk "U" 1 ["A"] 1] [Member.mk "U" 2; Member.mk "B" 3] in
  Forall NotOwnCrew
    (threadsCreated (interactionCreate "admin" (okEnv 4) (Command "admin" "admin" "match") q).2).
Proof.
  intros q.
  apply (leader_never_in_own_crew "admin" (okEnv 4) (Command "admin" "admin" "match") q).
  apply (bool_decide_unpack _). vm_compute. exact I.
Defined.
